(** * Telnet connection codec: escaping writer and incremental decoder

    A shallow embedding of [connection.go]: the [Connection] wrapper, its
    escaping [Write], the decode pass [read] with its buffer [fill], the
    retrying [Read] and the negotiation dispatch [handleNegotiation].

    Conventions of the embedding
    - a Go [byte] is a [Byte.byte]; a Go [int] index is a [Z];
    - a run-time panic (index or slice out of range) is the [Panic] outcome
      of the [Exec] monad, never a silent default;
    - [net.Conn] is an interface: it is the type class [Transport], with a
      scripted instance [Pipe] used to run the code on concrete inputs;
    - [Negotiator] is an interface: it is a record of the option code and
      the four callbacks. A callback acts on the connection through its
      transport; the model also appends every invocation, with its
      arguments, to the ghost field [trace] of the connection, next to
      every read and write the connection itself makes on the transport.
      A handler is assumed not to re-enter the reader. *)

From Stdlib Require Import ZArith Lia.
From Stdlib Require Strings.Byte.
From stdpp Require Import base decidable option countable list gmap.

Local Open Scope Z_scope.

Abbreviation byte := Byte.byte.

#[global] Instance byte_eq_dec : EqDecision byte := Byte.byte_eq_dec.

#[global] Instance byte_countable : Countable byte.
Proof.
  refine (inj_countable' Byte.to_N (λ k, default Byte.x00 (Byte.of_N k)) _).
  intros x. by rewrite Byte.of_to_N.
Defined.

(** ** Wire constants *)

(** Modelled from the spec: the wire constants are declared in a file of the
    repository that is not part of the sources at hand. The escape marker
    is 0xFF; the command bytes have the fixed values of the governing
    protocol specification (RFC 854/855). *)
Definition IAC : byte := Byte.xff.
Definition DONT : byte := Byte.xfe.
Definition DO : byte := Byte.xfd.
Definition WONT : byte := Byte.xfc.
Definition WILL : byte := Byte.xfb.
Definition SB : byte := Byte.xfa.
Definition SE : byte := Byte.xf0.

(** ** Outcomes of running Go code *)

Inductive error : Type :=
| io_EOF
| net_error (code : nat).

#[global] Instance error_eq_dec : EqDecision error.
Proof. solve_decision. Defined.

Inductive Exec (A : Type) : Type :=
| Ok (a : A)
| Panic       (* run-time panic: index or slice bounds out of range *)
| OutOfFuel.  (* the model's loop budget ran out; see [scan_fuel_enough] *)
Arguments Ok {A} a.
Arguments Panic {A}.
Arguments OutOfFuel {A}.

#[global] Instance Exec_ret : MRet Exec := λ A a, Ok a.
#[global] Instance Exec_bind : MBind Exec := λ A B k m,
  match m with
  | Ok a => k a
  | Panic => Panic
  | OutOfFuel => OutOfFuel
  end.

(** ** Go slices *)

(** [s[i]]. *)
Definition index (s : list byte) (i : Z) : Exec byte :=
  if bool_decide (0 ≤ i) then
    match s !! Z.to_nat i with
    | Some x => Ok x
    | None => Panic
    end
  else Panic.

(** [s[lo:hi]] for a slice whose capacity equals its length. *)
Definition slice (s : list byte) (lo hi : Z) : Exec (list byte) :=
  if bool_decide (0 ≤ lo ∧ lo ≤ hi ∧ hi ≤ Z.of_nat (length s)) then
    Ok (take (Z.to_nat (hi - lo)) (drop (Z.to_nat lo) s))
  else Panic.

(** [copy(dst, src)]: the new contents of [dst] and the number of bytes
    copied. Overlapping source and destination behave as with memmove:
    [src] is a value here. *)
Definition copy (dst src : list byte) : list byte * nat :=
  let nn := Nat.min (length dst) (length src) in
  (take nn src ++ drop nn dst, nn).

(** ** The transport ([net.Conn]) *)

(** [conn_Read t k] is [t.Read(p)] with [len(p) = k]: the bytes stored at the
    front of [p] and the error. [conn_Write t p] is [t.Write(p)]: the count
    reported and the error. The two laws are the [io.Reader] and
    [io.Writer] contracts on the counts. *)
Class Transport (T : Type) := {
  conn_Read : T → nat → T * list byte * option error;
  conn_Write : T → list byte → T * nat * option error;
  conn_Read_len : ∀ t k, (length (conn_Read t k).1.2 ≤ k)%nat;
  conn_Write_len : ∀ t p, ((conn_Write t p).1.2 ≤ length p)%nat
}.

(** ** Handlers and the observable trace *)

(** The interface [Negotiator]: the option code and the four callbacks. A
    callback is handed the connection; what it does with it is modelled
    as an effect on the transport of type [T] (a handler that writes its
    reply, say), and the call itself is recorded in the trace. *)
Record Negotiator (T : Type) := mkNegotiator {
  OptionCode : byte;
  offer : T → T;
  handleDo : T → T;
  handleWill : T → T;
  handleSB : list byte → T → T
}.
Arguments mkNegotiator {T}.
Arguments OptionCode {T}.
Arguments offer {T}.
Arguments handleDo {T}.
Arguments handleWill {T}.
Arguments handleSB {T}.

Inductive Event (T : Type) : Type :=
| ConnWrite (p : list byte) (nn : nat) (err : option error)
| ConnRead (k : nat) (data : list byte) (err : option error)
| Offer (h : Negotiator T)
| HandleDo (h : Negotiator T)
| HandleWill (h : Negotiator T)
| HandleSB (h : Negotiator T) (body : list byte).
Arguments ConnWrite {T}.
Arguments ConnRead {T}.
Arguments Offer {T}.
Arguments HandleDo {T}.
Arguments HandleWill {T}.
Arguments HandleSB {T}.

(** ** The connection *)

Record Connection (T : Type) := mkConnection {
  Conn : T;
  OptionHandlers : gmap byte (Negotiator T);
  buf : list byte;
  r : Z;
  w : Z;
  iac : bool;
  cmd : byte;
  option_ : byte;  (* the field [option] *)
  clientWont : gset byte;
  clientDont : gset byte;
  trace : list (Event T)  (* ghost: transport calls and handler invocations *)
}.
Arguments mkConnection {T}.
Arguments Conn {T}.
Arguments OptionHandlers {T}.
Arguments buf {T}.
Arguments r {T}.
Arguments w {T}.
Arguments iac {T}.
Arguments cmd {T}.
Arguments option_ {T}.
Arguments clientWont {T}.
Arguments clientDont {T}.
Arguments trace {T}.

Section Setters.
Context {T : Type}.
Implicit Type c : Connection T.

Definition with_Conn c (t : T) :=
  mkConnection t (OptionHandlers c) (buf c) (r c) (w c) (iac c) (cmd c)
    (option_ c) (clientWont c) (clientDont c) (trace c).
Definition with_OptionHandlers c m :=
  mkConnection (Conn c) m (buf c) (r c) (w c) (iac c) (cmd c)
    (option_ c) (clientWont c) (clientDont c) (trace c).
Definition with_buf c s :=
  mkConnection (Conn c) (OptionHandlers c) s (r c) (w c) (iac c) (cmd c)
    (option_ c) (clientWont c) (clientDont c) (trace c).
Definition with_r c z :=
  mkConnection (Conn c) (OptionHandlers c) (buf c) z (w c) (iac c) (cmd c)
    (option_ c) (clientWont c) (clientDont c) (trace c).
Definition with_w c z :=
  mkConnection (Conn c) (OptionHandlers c) (buf c) (r c) z (iac c) (cmd c)
    (option_ c) (clientWont c) (clientDont c) (trace c).
Definition with_iac c v :=
  mkConnection (Conn c) (OptionHandlers c) (buf c) (r c) (w c) v (cmd c)
    (option_ c) (clientWont c) (clientDont c) (trace c).
Definition with_cmd c x :=
  mkConnection (Conn c) (OptionHandlers c) (buf c) (r c) (w c) (iac c) x
    (option_ c) (clientWont c) (clientDont c) (trace c).
Definition with_option c x :=
  mkConnection (Conn c) (OptionHandlers c) (buf c) (r c) (w c) (iac c)
    (cmd c) x (clientWont c) (clientDont c) (trace c).
Definition with_clientWont c s :=
  mkConnection (Conn c) (OptionHandlers c) (buf c) (r c) (w c) (iac c)
    (cmd c) (option_ c) s (clientDont c) (trace c).
Definition with_clientDont c s :=
  mkConnection (Conn c) (OptionHandlers c) (buf c) (r c) (w c) (iac c)
    (cmd c) (option_ c) (clientWont c) s (trace c).
Definition with_trace c tr :=
  mkConnection (Conn c) (OptionHandlers c) (buf c) (r c) (w c) (iac c)
    (cmd c) (option_ c) (clientWont c) (clientDont c) tr.

(** Something observable happens: it is recorded. *)
Definition invoke c (ev : Event T) := with_trace c (trace c ++ [ev]).

(** A handler callback runs: it acts on the transport, and the invocation
    is recorded. *)
Definition callback c (fx : T → T) (ev : Event T) :=
  invoke (with_Conn c (fx (Conn c))) ev.
End Setters.

Section Code.
Context {T : Type} `{!Transport T}.
Implicit Type c : Connection T.

(** [c.Conn.Write(p)] *)
Definition Conn_Write c (p : list byte) : Connection T * Z * option error :=
  let '(t, nn, err) := conn_Write (Conn c) p in
  (invoke (with_Conn c t) (ConnWrite p nn err), Z.of_nat nn, err).

(** [RawWrite] and [writeBytes] both hand their argument to the
    transport unchanged. *)
Definition RawWrite c (b : list byte) := Conn_Write c b.
Definition writeBytes c (bytes : list byte) := Conn_Write c bytes.

(** *** [NewConnection] *)

(** Each element of [options] stands for the handler its factory builds
    for the connection. *)
Definition NewConnection (t : T) (options : list (Negotiator T))
  : Connection T :=
  foldl (λ conn h,
      callback (with_OptionHandlers conn
                  (<[OptionCode h := h]> (OptionHandlers conn)))
               (offer h) (Offer h))
    (mkConnection t ∅ (replicate 256 Byte.x00) 0 0 false Byte.x00 Byte.x00
       ∅ ∅ [])
    options.

(** *** [Write] *)

(** The [for i, ch := range b] loop, at index [i] with [rest = b[i:]],
    followed by the code after the loop. The result is [(n, err)]. *)
Fixpoint Write_range (b rest : list byte) (i : Z) c (n lastWrite : Z)
  : Exec (Connection T * Z * option error) :=
  match rest with
  | [] =>
      if bool_decide (lastWrite < Z.of_nat (length b)) then
        p ← slice b lastWrite (Z.of_nat (length b));
        let '(c1, nn, err) := Conn_Write c p in
        Ok (c1, n + nn, err)
      else Ok (c, n, None)
  | ch :: rest' =>
      if bool_decide (ch = IAC) then
        '(c1, n1, err1) ←
          (if bool_decide (lastWrite < i - 1) then
             p ← slice b lastWrite i;
             let '(c1, nn, err) := Conn_Write c p in
             Ok (c1, n + nn, err)
           else Ok (c, n, None));
        match err1 with
        | Some e => Ok (c1, n1, Some e)
        | None =>
            let lastWrite := i + 1 in
            let '(c2, nn, err) := Conn_Write c1 [IAC; IAC] in
            let n2 := n1 + nn in
            match err with
            | Some e => Ok (c2, n2, Some e)
            | None => Write_range b rest' (i + 1) c2 n2 lastWrite
            end
        end
      else Write_range b rest' (i + 1) c n lastWrite
  end.

Definition Write c (b : list byte) : Exec (Connection T * Z * option error) :=
  Write_range b b 0 c 0 0.
(** *** [fill] *)

(** The result pairs the connection with the error [fill] returns. *)
Definition fill c (requestedBytes : Z) : Exec (Connection T * option error) :=
  c1 ←
    (if bool_decide (r c > 0) then
       src ← slice (buf c) (r c) (Z.of_nat (length (buf c)));
       Ok (with_r (with_w (with_buf c (copy (buf c) src).1) (w c - r c)) 0)
     else Ok c);
  c2 ←
    (if bool_decide (Z.of_nat (length (buf c1)) < requestedBytes) then
       let newBuf := replicate (Z.to_nat requestedBytes) Byte.x00 in
       src ← slice (buf c1) (r c1) (w c1);
       Ok (with_r (with_w (with_buf c1 (copy newBuf src).1) (w c1 - r c1)) 0)
     else Ok c1);
  p ← slice (buf c2) (w c2) (Z.of_nat (length (buf c2)));
  let '(t, data, err) := conn_Read (Conn c2) (length p) in
  let nn := Z.of_nat (length data) in
  Ok (invoke
        (with_w
           (with_buf (with_Conn c2 t)
              (take (Z.to_nat (w c2)) (buf c2) ++ (copy p data).1))
           (w c2 + nn))
        (ConnRead (length p) data err),
      err).

(** *** [handleNegotiation] *)

Definition handleNegotiation c : Connection T * Z * option error :=
  if bool_decide (cmd c = WILL) then
    match OptionHandlers c !! option_ c with
    | Some h => (callback c (handleWill h) (HandleWill h), 0, None)
    | None => writeBytes c [IAC; DONT; option_ c]
    end
  else if bool_decide (cmd c = WONT) then
    (with_clientWont c ({[option_ c]} ∪ clientWont c), 0, None)
  else if bool_decide (cmd c = DO) then
    match OptionHandlers c !! option_ c with
    | Some h => (callback c (handleDo h) (HandleDo h), 0, None)
    | None => writeBytes c [IAC; WONT; option_ c]
    end
  else if bool_decide (cmd c = DONT) then
    (with_clientDont c ({[option_ c]} ∪ clientDont c), 0, None)
  else (c, 0, None).

(** *** [read]: the decode pass *)

(** The local variables of [read]. The caller's slice [b] is only written
    to, front to back: the frame keeps the prefix [b[:lastWrite]] that has
    been filled ([f_b]); [len(b)] is the parameter [blen] of the functions
    below. *)
Record Frame := mkFrame {
  f_conn : Connection T;
  f_n : Z;
  f_lastWrite : Z;
  f_ignoreIAC : bool;
  f_b : list byte
}.

Definition with_conn (f : Frame) c :=
  mkFrame c (f_n f) (f_lastWrite f) (f_ignoreIAC f) (f_b f).
Definition with_ignoreIAC (f : Frame) v :=
  mkFrame (f_conn f) (f_n f) (f_lastWrite f) v (f_b f).

(** The closure [write]. *)
Definition write (blen : Z) (f : Frame) (end_ : Z) : Exec Frame :=
  let c := f_conn f in
  if bool_decide (r c = end_) then Ok f
  else if bool_decide (0 ≤ f_lastWrite f ≤ blen) then
    src ← slice (buf c) (r c) end_;
    let room := Z.to_nat (blen - f_lastWrite f) in
    let nn := Z.of_nat (Nat.min room (length src)) in
    Ok (mkFrame (with_r c (r c + nn)) (f_n f + nn) (f_lastWrite f + nn)
          (f_ignoreIAC f) (f_b f ++ take room src))
  else Panic.

(** The closure [endIAC]. *)
Definition endIAC c (i : Z) : Connection T :=
  with_r (with_option (with_cmd (with_iac c false) Byte.x00) Byte.x00) (i + 1).

(** How one iteration of the scan loop ends: [continue] (or the end of the
    body) with the value [i] has at that point, [break], or [return 0, err]. *)
Inductive Ctl : Type :=
| Continue (i : Z) (f : Frame)
| Break (f : Frame)
| Return (e : error) (f : Frame).

(** The loop body from [ignoreIAC = false] on. *)
Definition dispatch (i : Z) (ch : byte) (f : Frame) : Exec Ctl :=
  let f := with_ignoreIAC f false in
  let c := f_conn f in
  if iac c && bool_decide (cmd c = Byte.x00) then
    let c := with_cmd c ch in
    if bool_decide (ch = SB) then
      if bool_decide (i + 2 >= w c) then Ok (Break (with_conn f c))
      else Ok (Continue i (with_conn f (with_r c (i + 2))))
    else Ok (Continue i (with_conn f c))
  else if iac c && bool_decide (option_ c = Byte.x00) then
    let c := with_option c ch in
    if bool_decide (cmd c ≠ SB) then
      let '(c1, _, err) := handleNegotiation c in
      match err with
      | Some e => Ok (Return e (with_conn f c1))
      | None => Ok (Continue i (with_conn f (endIAC c1 i)))
      end
    else Ok (Continue i (with_conn f c))
  else if iac c && bool_decide (cmd c = SB) && bool_decide (ch = SE) then
    prev ← index (buf c) (i - 1);
    if bool_decide (prev = IAC) then
      c1 ←
        match OptionHandlers c !! option_ c with
        | Some h =>
            body ← slice (buf c) (r c) (i - 1);
            Ok (callback c (handleSB h body) (HandleSB h body))
        | None => Ok c
        end;
      Ok (Continue i (with_conn f (endIAC c1 i)))
    else Ok (Continue i f)
  else Ok (Continue i f).

(** One iteration of the scan loop at index [i]. *)
Definition step (blen : Z) (i : Z) (f : Frame) : Exec Ctl :=
  let c := f_conn f in
  ch ← index (buf c) i;
  if bool_decide (ch = IAC) && negb (f_ignoreIAC f) then
    if iac c && bool_decide (cmd c = Byte.x00) then
      f1 ← write blen f i;
      let c1 := f_conn f1 in
      Ok (Continue i (with_conn f1 (with_iac (with_r c1 (r c1 + 1)) false)))
    else if iac c then
      prev ← index (buf c) (i - 1);
      if bool_decide (prev = IAC) then
        dst ← slice (buf c) 0 i;
        src ← slice (buf c) (i + 1) (Z.of_nat (length (buf c)));
        let buf1 := (copy dst src).1 ++ drop (Z.to_nat i) (buf c) in
        Ok (Continue (i - 1) (with_ignoreIAC (with_conn f (with_buf c buf1)) true))
      else dispatch i ch f
    else
      f1 ← write blen f i;
      Ok (Continue i (with_conn f1 (with_iac (f_conn f1) true)))
  else dispatch i ch f.

(** How the scan loop ends: its condition fails or it breaks ([Done]), or
    the pass returns from inside it ([Returned]). *)
Inductive ScanEnd : Type :=
| Done (f : Frame)
| Returned (e : error) (f : Frame).

(** [for i := ...; i < c.w && lastWrite < len(b); i++ { ... }] entered with
    the loop variable at [i]. [fuel] bounds the number of iterations. *)
Fixpoint scan (fuel : nat) (blen : Z) (i : Z) (f : Frame) : Exec ScanEnd :=
  if bool_decide (i < w (f_conn f) ∧ f_lastWrite f < blen) then
    match fuel with
    | O => OutOfFuel
    | S fuel' =>
        ctl ← step blen i f;
        match ctl with
        | Continue i' f' => scan fuel' blen (i' + 1) f'
        | Break f' => Ok (Done f')
        | Return e f' => Ok (Returned e f')
        end
    end
  else Ok (Done f).

(** An iteration either advances [i] or, once per index, repeats it with
    [ignoreIAC] set: twice the number of unread bytes bounds the loop. *)
Definition scan_fuel c : nat := Z.to_nat (2 * (w c - r c) + 1).

(** What a call of [read] leaves behind: the connection, the results
    [(n, err)] and the filled prefix of [b]. *)
Record ReadResult := mkReadResult {
  rr_conn : Connection T;
  rr_n : Z;
  rr_err : option error;
  rr_b : list byte
}.

Definition read c (blen : Z) : Exec ReadResult :=
  '(c1, err) ← fill c blen;
  match err with
  | Some e => Ok (mkReadResult c1 0 (Some e) [])
  | None =>
      fin ← scan (scan_fuel c1) blen (r c1) (mkFrame c1 0 0 false []);
      match fin with
      | Returned e f => Ok (mkReadResult (f_conn f) 0 (Some e) (f_b f))
      | Done f =>
          let c2 := f_conn f in
          if bool_decide (0 ≤ f_lastWrite f ≤ blen) then
            src ← slice (buf c2) (r c2) (w c2);
            let room := Z.to_nat (blen - f_lastWrite f) in
            let nn := Z.of_nat (Nat.min room (length src)) in
            Ok (mkReadResult (with_r c2 (r c2 + nn)) (f_n f + nn) None
                  (f_b f ++ take room src))
          else Panic
      end
  end.

(** *** [Read] *)

Definition maxReadAttempts : nat := 10.

(** [for i := 0; i < maxReadAttempts && n == 0 && len(b) > 0; i++] with
    [attempts = maxReadAttempts - i] iterations still allowed; [res] holds
    the current [(n, err)]. *)
Fixpoint Read_loop (attempts : nat) (blen : Z) (res : ReadResult)
  : Exec ReadResult :=
  match attempts with
  | O => Ok res
  | S attempts' =>
      if bool_decide (rr_n res = 0 ∧ blen > 0) then
        res' ← read (rr_conn res) blen;
        Read_loop attempts' blen res'
      else Ok res
  end.

Definition Read c (blen : Z) : Exec ReadResult :=
  Read_loop maxReadAttempts blen (mkReadResult c 0 None []).

End Code.

(** ** A scripted transport *)

(** [rx] lists what will arrive, one entry per arrival: the bytes and the
    error reported with them. A [Read] takes the first entry, or as much of
    it as fits; when nothing is left the peer has closed ([io_EOF]). [tx]
    is what has been put on the wire. [tx_room], when set, is the number of
    bytes the transport still accepts before its writes fail. *)
Record Pipe := mkPipe {
  rx : list (list byte * option error);
  tx : list byte;
  tx_room : option nat
}.

Definition Pipe_Read (t : Pipe) (k : nat) : Pipe * list byte * option error :=
  match rx t with
  | [] => (t, [], Some io_EOF)
  | (d, e) :: rest =>
      if bool_decide (length d ≤ k)%nat then
        (mkPipe rest (tx t) (tx_room t), d, e)
      else
        (mkPipe ((drop k d, e) :: rest) (tx t) (tx_room t), take k d, None)
  end.

Definition Pipe_Write (t : Pipe) (p : list byte) : Pipe * nat * option error :=
  match tx_room t with
  | None => (mkPipe (rx t) (tx t ++ p) None, length p, None)
  | Some m =>
      if bool_decide (length p ≤ m)%nat then
        (mkPipe (rx t) (tx t ++ p) (Some (m - length p)%nat), length p, None)
      else
        (mkPipe (rx t) (tx t ++ take m p) (Some 0%nat), m, Some (net_error 32))
  end.

#[global] Instance Pipe_Transport : Transport Pipe.
Proof.
  refine {| conn_Read := Pipe_Read; conn_Write := Pipe_Write |}.
  - intros t k. unfold Pipe_Read. destruct (rx t) as [|[d e] rest]; simpl.
    + lia.
    + case_bool_decide; simpl; [done|]. rewrite length_take. lia.
  - intros t p. unfold Pipe_Write. destruct (tx_room t) as [m|]; simpl.
    + case_bool_decide; simpl; lia.
    + lia.
Defined.

(** A pipe on which the given chunks will arrive, one per transport read,
    and whose writes never fail. *)
Definition pipe_of (chunks : list (list byte)) : Pipe :=
  mkPipe ((λ d, (d, None)) <$> chunks) [] None.

(** The application bytes a call of [Read] hands to its caller: [b[:n]]. *)
Definition delivered {T} (res : @ReadResult T) : list byte :=
  take (Z.to_nat (rr_n res)) (rr_b res).

(** [calls] successive calls of [Read] with a buffer of [blen] bytes, up to
    the first error: the connection left and all bytes delivered. *)
Fixpoint Read_many {T} `{!Transport T} (calls : nat) (c : Connection T)
  (blen : Z) : Exec (Connection T * list byte) :=
  match calls with
  | O => Ok (c, [])
  | S calls' =>
      res ← Read c blen;
      match rr_err res with
      | Some _ => Ok (rr_conn res, delivered res)
      | None =>
          '(c', more) ← Read_many calls' (rr_conn res) blen;
          Ok (c', delivered res ++ more)
      end
  end.

(** The handler invocations in a trace. *)
Definition is_call {T} (ev : Event T) : bool :=
  match ev with
  | ConnWrite _ _ _ | ConnRead _ _ _ => false
  | _ => true
  end.
Definition calls_of {T} (tr : list (Event T)) : list (Event T) :=
  filter is_call tr.

(** ** Predicates used in the statements *)

(** The buffer-cursor invariant. *)
Definition buf_inv {T} (c : Connection T) : Prop :=
  0 ≤ r c ∧ r c ≤ w c ∧ w c ≤ Z.of_nat (length (buf c)).

(** The parser is outside any control sequence. *)
Definition idle {T} (c : Connection T) : Prop :=
  iac c = false ∧ cmd c = Byte.x00 ∧ option_ c = Byte.x00.

(** Nothing unread is buffered and the parser is idle. *)
Definition ready {T} (c : Connection T) : Prop :=
  buf_inv c ∧ r c = w c ∧ idle c.

(** The next transport read, made by [fill] for a caller buffer of [blen]
    bytes on a connection with nothing buffered, delivers [wire]. *)
Definition arrives {T} `{!Transport T} (c : Connection T) (blen : Z)
  (wire : list byte) (t : T) (err : option error) : Prop :=
  conn_Read (Conn c)
    (Z.to_nat (Z.max (Z.of_nat (length (buf c))) blen)) = (t, wire, err).

(** An outcome satisfies [P]: a panic ends the run and leaves nothing to
    observe; running out of loop budget is not an outcome of the code. *)
Definition after {A} (P : A → Prop) (e : Exec A) : Prop :=
  match e with
  | Ok a => P a
  | Panic => True
  | OutOfFuel => False
  end.

(** Successive calls of [Read], one per element of [blens], the caller's
    buffer lengths; errors do not end the sequence. *)
Fixpoint Read_seq {T} `{!Transport T} (c : Connection T) (blens : list Z)
  : Exec (Connection T) :=
  match blens with
  | [] => Ok c
  | blen :: blens' =>
      res ← Read c blen;
      Read_seq (rr_conn res) blens'
  end.

(** The number of bytes the transport reported as written in a trace. *)
Definition reported {T} (tr : list (Event T)) : Z :=
  foldr (λ ev acc,
    match ev with
    | ConnWrite _ nn _ => Z.of_nat nn + acc
    | _ => acc
    end) 0 tr.

(** The number of transport reads in a trace: one per decode pass. *)
Definition is_read {T} (ev : Event T) : bool :=
  match ev with
  | ConnRead _ _ _ => true
  | _ => false
  end.
Definition passes {T} (tr : list (Event T)) : nat :=
  length (filter is_read tr).

(** ** Notions used by the proofs *)

Section Specs.
Context {T : Type} `{!Transport T}.
Implicit Type c : Connection T.
Implicit Type f : @Frame T.

(** [c'] differs from [c] at most in the cursor [r], the parser state, the
    contents (not the length) of the buffer, grown refusal sets, and a
    trace extended by writes and handler invocations. *)
Definition evolves c c' : Prop :=
  w c' = w c ∧ length (buf c') = length (buf c) ∧
  OptionHandlers c' = OptionHandlers c ∧
  clientWont c ⊆ clientWont c' ∧ clientDont c ⊆ clientDont c' ∧
  passes (trace c') = passes (trace c).

(** The effect of one loop iteration at index [i], ending with the loop
    variable at [i'] (before its increment). *)
Definition stepped (i : Z) f (i' : Z) f' : Prop :=
  evolves (f_conn f) (f_conn f') ∧
  (buf_inv (f_conn f) → 0 ≤ i < w (f_conn f) → buf_inv (f_conn f')) ∧
  (i' = i ∧ f_ignoreIAC f' = false
   ∨ i' = i - 1 ∧ f_ignoreIAC f = false ∧ f_ignoreIAC f' = true).

(** [stepped], for each way an iteration can end. *)
Definition ctl_stepped (i : Z) f (ctl : @Ctl T) : Prop :=
  match ctl with
  | Continue i' f' => stepped i f i' f'
  | Break f' | Return _ f' => stepped i f i f'
  end.

(** The frame the scan loop ends with. *)
Definition end_frame (fin : @ScanEnd T) : Frame :=
  match fin with
  | Done f | Returned _ f => f
  end.

(** The loop budget the iterations still to come can use up. *)
Definition scan_measure (i : Z) f : nat :=
  Z.to_nat (2 * (w (f_conn f) - i) + if f_ignoreIAC f then 0 else 1).

(** The pass over [wire] hands nothing to the caller, and what it does
    after its transport read is exactly [evs]. *)
Definition silent_pass c blen (wire : list byte) (evs : list (Event T))
  (res : @ReadResult T) : Prop :=
  rr_n res = 0 ∧ rr_b res = [] ∧
  trace (rr_conn res) =
  trace c ++
  ConnRead (Z.to_nat (Z.max (Z.of_nat (length (buf c))) blen)) wire None
  :: evs.

(** The refusal sets of [c'] are those of [c]. *)
Definition same_refusals c c' : Prop :=
  clientWont c' = clientWont c ∧ clientDont c' = clientDont c.

End Specs.

(** In [l] no marker is directly followed by a marker or by [SE]. *)
Fixpoint sb_safe (l : list byte) : bool :=
  match l with
  | x :: (y :: _) as l' =>
      negb (bool_decide (x = IAC)
            && (bool_decide (y = IAC) || bool_decide (y = SE)))
      && sb_safe l'
  | _ => true
  end.

(** A transport write that reported no error. *)
Definition succeeded {T} (ev : Event T) : Prop :=
  match ev with
  | ConnWrite _ _ None => True
  | _ => False
  end.

(** [last] is empty and no error is returned, or it is the one failed
    write whose error is returned. *)
Definition failing_write {T} (last : list (Event T)) (err : option error)
  : Prop :=
  last = [] ∧ err = None
  ∨ ∃ p nn e, last = [ConnWrite p nn (Some e)] ∧ err = Some e.

(** What a call of [Write] that started from [c] with the count at [n]
    did: successful transport writes, then at most one failed write, the
    last thing it did; the count grew by what the transport reported. *)
Definition write_outcome {T} (c : Connection T) (n : Z)
  (out : Connection T * Z * option error) : Prop :=
  let '(c', n', err) := out in
  ∃ oks last,
    trace c' = trace c ++ oks ++ last ∧ Forall succeeded oks ∧
    failing_write last err ∧ n' = n + reported (oks ++ last).

(** ** Runs on concrete inputs *)

(** A new connection over a pipe on which [chunks] will arrive. *)
Definition fresh (chunks : list (list byte))
  (handlers : list (Negotiator Pipe))
  : Connection Pipe :=
  NewConnection (pipe_of chunks) handlers.

(** The wire bytes [Write] produces for [b], and the count it returns. *)
Definition written (b : list byte) : Exec (list byte * Z * option error) :=
  '(c, n, err) ← Write (fresh [] []) b;
  Ok (tx (Conn c), n, err).

(** What [calls] calls of [Read] with a [blen]-byte buffer hand to the
    caller, which handlers they invoke and what they put on the wire. *)
Definition decode (calls : nat) (c : Connection Pipe) (blen : Z)
  : Exec (list byte * list (Event Pipe) * list byte) :=
  '(c', out) ← Read_many calls c blen;
  Ok (out, calls_of (trace c'), tx (Conn c')).

(** [written], on a transport that accepts [room] more bytes and then
    fails. *)
Definition written_with_room (room : nat) (b : list byte)
  : Exec (list byte * Z * option error) :=
  '(c, n, err) ← Write (NewConnection (mkPipe [] [] (Some room)) []) b;
  Ok (tx (Conn c), n, err).

(** The refusals recorded after [calls] calls of [Read]: the members of
    [clientWont] and of [clientDont]. *)
Definition refused (calls : nat) (c : Connection Pipe) (blen : Z)
  : Exec (list byte * list byte) :=
  '(c', _) ← Read_many calls c blen;
  Ok (elements (clientWont c'), elements (clientDont c')).

(** Writing [D] and decoding what arrived on the wire. *)
Definition round_trip (D : list byte) (blen : Z) : Exec (list byte) :=
  '(wire, _, _) ← written D;
  '(out, _, _) ← decode 1 (fresh [wire] []) blen;
  Ok out.

(** One call of [Read]: the results [(n, err)] and the number of decode
    passes it ran. *)
Definition Read_passes (c : Connection Pipe) (blen : Z)
  : Exec (Z * option error * nat) :=
  res ← Read c blen;
  Ok (rr_n res, rr_err res, (passes (trace (rr_conn res)) - passes (trace c))%nat).

(** Handlers for the option identifiers 24 and 0 whose callbacks leave the
    transport alone. *)
Definition h24 : Negotiator Pipe := mkNegotiator Byte.x18 id id id (λ _, id).
Definition h0 : Negotiator Pipe := mkNegotiator Byte.x00 id id id (λ _, id).

(** A handler for the option identifier 24 whose [Offer] announces the
    option on the wire. *)
Definition h24_announcing : Negotiator Pipe :=
  mkNegotiator Byte.x18 (λ t, (Pipe_Write t [IAC; WILL; Byte.x18]).1.1)
    id id (λ _, id).

(** A pipe whose first read fails and whose second read delivers a byte. *)
Definition flaky_pipe : Pipe :=
  mkPipe [([], Some (net_error 110)); ([Byte.x41], None)] [] None.

(** ** Notions used by the further properties *)

(** The wire form of application data: every marker doubled. *)
Fixpoint escape (b : list byte) : list byte :=
  match b with
  | [] => []
  | ch :: b' =>
      if bool_decide (ch = IAC) then IAC :: IAC :: escape b'
      else ch :: escape b'
  end.

(** No marker of [b] comes right after a run of exactly one byte;
    [pending] is the length of the run of bytes since the last marker. *)
Fixpoint well_spaced_from (pending : nat) (b : list byte) : bool :=
  match b with
  | [] => true
  | ch :: b' =>
      if bool_decide (ch = IAC) then
        negb (Nat.eqb pending 1) && well_spaced_from 0 b'
      else well_spaced_from (S pending) b'
  end.

Definition well_spaced (b : list byte) : bool := well_spaced_from 0 b.

(** The raw bytes awaiting decoding: [c.buf[c.r:c.w]]. *)
Definition unread {T} (c : Connection T) : list byte :=
  take (Z.to_nat (w c - r c)) (drop (Z.to_nat (r c)) (buf c)).

(** [c'] has the reader's fields of [c]: buffer, cursors, parser state,
    handlers and refusal sets. *)
Definition same_reader {T} (c c' : Connection T) : Prop :=
  buf c' = buf c ∧ r c' = r c ∧ w c' = w c ∧ iac c' = iac c ∧
  cmd c' = cmd c ∧ option_ c' = option_ c ∧
  OptionHandlers c' = OptionHandlers c ∧
  clientWont c' = clientWont c ∧ clientDont c' = clientDont c.


(** The command bytes [handleNegotiation] acts on. *)
Definition negotiation_command (k : byte) : Prop :=
  k = WILL ∨ k = WONT ∨ k = DO ∨ k = DONT.

(** The counters of a decode pass agree with what has been copied to the
    caller's buffer of [blen] bytes. *)
Definition counts_ok {T} (blen : Z) (f : @Frame T) : Prop :=
  0 ≤ f_lastWrite f ≤ blen ∧ f_n f = f_lastWrite f ∧
  Z.of_nat (length (f_b f)) = f_lastWrite f.

(** The frame an iteration of the scan loop ends with. *)
Definition ctl_frame {T} (ctl : @Ctl T) : @Frame T :=
  match ctl with
  | Continue _ f | Break f | Return _ f => f
  end.

(** The results of a read respect a caller buffer of [blen] bytes. *)
Definition within_buffer {T} (blen : Z) (res : @ReadResult T) : Prop :=
  0 ≤ rr_n res ≤ blen ∧ Z.of_nat (length (rr_b res)) ≤ blen ∧
  (rr_err res = None → rr_n res = Z.of_nat (length (rr_b res))).

(** What the scan loop keeps, at the head of the iteration at index [i],
    in a pass that started outside any sequence: the look-behind index is
    not negative inside a sequence, the read cursor is not ahead of [i]
    outside a subnegotiation, and inside one it is ahead only until the
    option byte has been read or while that byte is the marker, for which
    no handler is registered. *)
Definition scan_safe {T} (blen i : Z) (f : @Frame T) : Prop :=
  buf_inv (f_conn f) ∧ 0 ≤ f_lastWrite f ≤ blen ∧ 0 ≤ i ∧
  OptionHandlers (f_conn f) !! IAC = None ∧
  (iac (f_conn f) = true → 1 ≤ i) ∧
  (iac (f_conn f) = false → cmd (f_conn f) = Byte.x00) ∧
  (cmd (f_conn f) = Byte.x00 → option_ (f_conn f) = Byte.x00) ∧
  (cmd (f_conn f) ≠ SB → r (f_conn f) ≤ i) ∧
  (cmd (f_conn f) = SB →
     r (f_conn f) ≤ i - 1 ∨
     (r (f_conn f) = i + 1 ∧ option_ (f_conn f) = Byte.x00) ∨
     (r (f_conn f) = i ∧
      if f_ignoreIAC f then index (buf (f_conn f)) i = Ok IAC
      else index (buf (f_conn f)) (i - 1) = Ok (option_ (f_conn f)))).

(** What the trailing flush of [read] needs of the frame the loop ends
    with. *)
Definition end_safe {T} (blen : Z) (f : @Frame T) : Prop :=
  buf_inv (f_conn f) ∧ 0 ≤ f_lastWrite f ≤ blen.

Definition ctl_safe {T} (blen : Z) (ctl : @Ctl T) : Prop :=
  match ctl with
  | Continue i' f' => scan_safe blen (i' + 1) f'
  | Break f' | Return _ f' => end_safe blen f'
  end.

(** * Properties *)

#[local] Arguments copy : simpl never.
#[local] Arguments slice : simpl never.
#[local] Arguments index : simpl never.
#[local] Arguments passes : simpl never.
#[local] Arguments reported : simpl never.
#[local] Arguments calls_of : simpl never.
#[local] Arguments handleNegotiation : simpl never.
#[local] Arguments Conn_Write : simpl never.
#[local] Arguments write : simpl never.
#[local] Arguments dispatch : simpl never.
#[local] Arguments step : simpl never.
#[local] Arguments scan : simpl never.
#[local] Arguments fill : simpl never.
#[local] Arguments read : simpl never.
#[local] Arguments Read : simpl never.

(** ** Slices *)


Lemma copy_length (dst src : list byte) : length (copy dst src).1 = length dst.
Proof.
  unfold copy. cbn. rewrite length_app, length_take, length_drop. lia.
Qed.

Lemma slice_Ok_inv (s : list byte) lo hi x :
  slice s lo hi = Ok x →
  0 ≤ lo ∧ lo ≤ hi ∧ hi ≤ Z.of_nat (length s) ∧
  x = take (Z.to_nat (hi - lo)) (drop (Z.to_nat lo) s) ∧
  Z.of_nat (length x) = hi - lo.
Proof.
  unfold slice. case_bool_decide as Hb; [|done].
  intros [= <-]. destruct Hb as (? & ? & ?).
  rewrite length_take, length_drop. repeat split; try done; lia.
Qed.

Lemma slice_in_range (s : list byte) lo hi :
  0 ≤ lo → lo ≤ hi → hi ≤ Z.of_nat (length s) →
  slice s lo hi = Ok (take (Z.to_nat (hi - lo)) (drop (Z.to_nat lo) s)).
Proof. intros. unfold slice. by rewrite bool_decide_true by lia. Qed.

Lemma slice_no_OutOfFuel (s : list byte) lo hi : slice s lo hi ≠ OutOfFuel.
Proof. unfold slice. by case_bool_decide. Qed.

Lemma index_Ok_inv (s : list byte) i x :
  index s i = Ok x → 0 ≤ i < Z.of_nat (length s) ∧ s !! Z.to_nat i = Some x.
Proof.
  unfold index. case_bool_decide; [|done].
  destruct (s !! Z.to_nat i) eqn:E; [|done]. intros [= <-].
  apply lookup_lt_Some in E. split; [lia|done].
Qed.

Lemma index_lookup (s : list byte) i x :
  0 ≤ i → s !! Z.to_nat i = Some x → index s i = Ok x.
Proof. intros ? E. unfold index. rewrite bool_decide_true by done. by rewrite E. Qed.

Lemma index_no_OutOfFuel (s : list byte) i : index s i ≠ OutOfFuel.
Proof. unfold index. case_bool_decide; [|done]. by destruct (_ !! _). Qed.

(** ** Proof tactics *)

Ltac lens :=
  rewrite ?copy_length, ?length_app, ?length_take, ?length_drop,
    ?length_replicate.

Ltac unsetters :=
  unfold with_conn, with_ignoreIAC, endIAC, callback, invoke, with_Conn,
    with_OptionHandlers, with_buf, with_r, with_w, with_iac, with_cmd,
    with_option, with_clientWont, with_clientDont, with_trace in *.

Ltac bools :=
  repeat match goal with
  | H : bool_decide _ = true |- _ => apply bool_decide_eq_true in H
  | H : bool_decide _ = false |- _ => apply bool_decide_eq_false in H
  | H : _ && _ = true |- _ => apply andb_true_iff in H as [? ?]
  end.

(** Reduce the projections of explicit records only. *)
Ltac proj :=
  cbn [f_conn f_n f_lastWrite f_ignoreIAC f_b Conn OptionHandlers buf r w
       iac cmd option_ clientWont clientDont trace rr_conn rr_n rr_err rr_b
       mbind Exec_bind].

Tactic Notation "proj" "in" hyp(H) :=
  cbn [f_conn f_n f_lastWrite f_ignoreIAC f_b Conn OptionHandlers buf r w
       iac cmd option_ clientWont clientDont trace rr_conn rr_n rr_err rr_b
       mbind Exec_bind] in H.

Ltac no_fuel :=
  match goal with
  | H : index _ _ = OutOfFuel |- _ => by apply index_no_OutOfFuel in H
  | H : slice _ _ _ = OutOfFuel |- _ => by apply slice_no_OutOfFuel in H
  end.

(** Case analysis on an innermost conditional, match or monadic bind of
    the goal. *)
Ltac atomic x :=
  lazymatch x with
  | context [if _ then _ else _] => fail
  | context [match _ with _ => _ end] => fail
  | context [mbind _ _] => fail
  | _ => idtac
  end.

Ltac branch :=
  match goal with
  | |- context [if ?b then _ else _] => atomic b; destruct b eqn:?
  | |- context [mbind _ (Ok _)] => progress cbn [mbind Exec_bind]
  | |- context [mbind _ ?x] => atomic x; destruct x eqn:?; cbn [mbind Exec_bind]
  | |- context [match ?x with _ => _ end] => atomic x; destruct x eqn:?
  end.

Section Reader.
Context {T : Type} `{!Transport T}.
Implicit Type c : Connection T.
Implicit Type f : @Frame T.

(** ** The buffer fill *)

Lemma fill_buf_inv c requestedBytes c' err :
  buf_inv c → fill c requestedBytes = Ok (c', err) → buf_inv c'.
Proof.
  intros (Hr & Hrw & Hw). unfold fill.
  set (c1 := if bool_decide (r c > 0) then _ else _).
  assert (after buf_inv c1 ∧ c1 ≠ OutOfFuel) as Hc1.
  { subst c1. case_bool_decide.
    - destruct (slice _ _ _) as [src| |] eqn:Es; cbn; [|done|].
      + split; [|done]. unfold buf_inv. cbn. lens. lia.
      + by apply slice_no_OutOfFuel in Es.
    - cbn. unfold buf_inv. split; [lia|done]. }
  destruct c1 as [c1| |]; cbn; [|done|done].
  destruct Hc1 as [(Hr1 & Hrw1 & Hw1) _]. cbn in *.
  set (c2 := if bool_decide (_ < requestedBytes) then _ else _).
  assert (after buf_inv c2) as Hc2.
  { subst c2. case_bool_decide.
    - destruct (slice _ _ _) as [src| |] eqn:Es; cbn; [|done|].
      + unfold buf_inv. cbn. lens. lia.
      + by apply slice_no_OutOfFuel in Es.
    - cbn. unfold buf_inv. lia. }
  destruct c2 as [c2| |]; cbn; [|done|done].
  destruct Hc2 as (Hr2 & Hrw2 & Hw2).
  destruct (slice _ _ _) as [p| |] eqn:Ep; cbn; [|done|done].
  apply slice_Ok_inv in Ep as (_ & _ & _ & _ & Hp).
  pose proof (conn_Read_len (Conn c2) (length p)) as Hlen.
  destruct (conn_Read _ _) as [[t data] e]. cbn in Hlen.
  intros [= <- <-]. unfold buf_inv. cbn. lens. lia.
Qed.

Lemma fill_no_OutOfFuel c requestedBytes : fill c requestedBytes ≠ OutOfFuel.
Proof.
  unfold fill.
  destruct (bool_decide (r c > 0)); cbn.
  - destruct (slice _ _ _) as [src| |] eqn:Es; cbn; [|done|by apply slice_no_OutOfFuel in Es].
    case_bool_decide; cbn.
    + destruct (slice _ _ _) as [src2| |] eqn:Es2 in |- *; cbn; [|done|by apply slice_no_OutOfFuel in Es2].
      destruct (slice _ _ _) as [p| |] eqn:Ep in |- *; cbn; [|done|by apply slice_no_OutOfFuel in Ep].
      by destruct (conn_Read _ _) as [[? ?] ?].
    + destruct (slice _ _ _) as [p| |] eqn:Ep in |- *; cbn; [|done|by apply slice_no_OutOfFuel in Ep].
      by destruct (conn_Read _ _) as [[? ?] ?].
  - case_bool_decide; cbn.
    + destruct (slice _ _ _) as [src2| |] eqn:Es2 in |- *; cbn; [|done|by apply slice_no_OutOfFuel in Es2].
      destruct (slice _ _ _) as [p| |] eqn:Ep in |- *; cbn; [|done|by apply slice_no_OutOfFuel in Ep].
      by destruct (conn_Read _ _) as [[? ?] ?].
    + destruct (slice _ _ _) as [p| |] eqn:Ep in |- *; cbn; [|done|by apply slice_no_OutOfFuel in Ep].
      by destruct (conn_Read _ _) as [[? ?] ?].
Qed.

(** ** What one loop iteration may change *)

Lemma evolves_refl c : evolves c c.
Proof. by unfold evolves. Qed.

Lemma evolves_trans c1 c2 c3 : evolves c1 c2 → evolves c2 c3 → evolves c1 c3.
Proof.
  unfold evolves. intros (-> & -> & -> & ? & ? & ->) (-> & -> & -> & ? & ? & ->).
  split_and!; try done; set_solver.
Qed.

Lemma passes_snoc (tr : list (Event T)) ev :
  passes (tr ++ [ev]) = (passes tr + if is_read ev then 1 else 0)%nat.
Proof.
  unfold passes. rewrite filter_app, length_app. f_equal.
  destruct ev; reflexivity.
Qed.

Lemma Conn_Write_evolves c p c' nn err :
  Conn_Write c p = (c', nn, err) →
  evolves c c' ∧ r c' = r c ∧ buf c' = buf c ∧ iac c' = iac c ∧
  cmd c' = cmd c ∧ option_ c' = option_ c.
Proof.
  unfold Conn_Write. destruct (conn_Write _ _) as [[t k] e].
  intros [= <- <- <-]. unfold evolves. cbn. rewrite passes_snoc. cbn.
  split_and!; try done; lia.
Qed.

Lemma handleNegotiation_evolves c c' nn err :
  handleNegotiation c = (c', nn, err) →
  evolves c c' ∧ r c' = r c ∧ buf c' = buf c ∧ iac c' = iac c ∧
  cmd c' = cmd c ∧ option_ c' = option_ c.
Proof.
  unfold handleNegotiation, writeBytes. intros Hn.
  repeat case_bool_decide; repeat case_match;
    try (by eapply Conn_Write_evolves);
    simplify_eq; unfold evolves; cbn; rewrite ?passes_snoc; cbn;
    split_and!; try done; try lia; set_solver.
Qed.

Lemma write_Ok blen f e f' :
  write blen f e = Ok f' →
  evolves (f_conn f) (f_conn f') ∧ buf (f_conn f') = buf (f_conn f) ∧
  iac (f_conn f') = iac (f_conn f) ∧ cmd (f_conn f') = cmd (f_conn f) ∧
  option_ (f_conn f') = option_ (f_conn f) ∧
  f_ignoreIAC f' = f_ignoreIAC f ∧
  r (f_conn f) ≤ r (f_conn f') ∧ r (f_conn f') ≤ e.
Proof.
  unfold write. case_bool_decide as Hre.
  { intros [= <-]. split_and!; try done; first [apply evolves_refl|lia]. }
  case_bool_decide; [|done].
  destruct (slice _ _ _) as [src| |] eqn:Es; [|done|done]. cbn.
  apply slice_Ok_inv in Es as (? & ? & ? & _ & Hlen).
  intros [= <-]. cbn. unfold evolves. cbn. split_and!; try done; lia.
Qed.

Lemma write_no_OutOfFuel blen f e : write blen f e ≠ OutOfFuel.
Proof.
  unfold write. repeat case_bool_decide; try done.
  destruct (slice _ _ _) eqn:Es; try done. by apply slice_no_OutOfFuel in Es.
Qed.

Lemma dispatch_sound i ch f ctl :
  dispatch i ch f = Ok ctl → ctl_stepped i f ctl.
Proof.
  unfold dispatch. destruct f as [c n lw ig b]. cbn.
  repeat branch; try done; bools;
    try (match goal with
         | H : handleNegotiation _ = _ |- _ =>
             apply handleNegotiation_evolves in H as (Hev & Hr & Hb & _);
             destruct Hev as (Hw & Hl & ? & ? & ? & ?)
         end);
    intros [= <-]; unsetters; cbn in *;
    unfold stepped, evolves, buf_inv; cbn;
    rewrite ?passes_snoc; cbn; rewrite ?Hw, ?Hl, ?Hr;
    (split_and!; [try (done || lia) ..| left; done]).
Qed.

Lemma dispatch_no_OutOfFuel i ch f : dispatch i ch f ≠ OutOfFuel.
Proof.
  unfold dispatch. destruct f as [c n lw ig b]. cbn.
  repeat branch; try done; no_fuel.
Qed.

Lemma step_sound blen i f ctl :
  step blen i f = Ok ctl → ctl_stepped i f ctl.
Proof.
  unfold step.
  destruct (index (buf (f_conn f)) i) as [ch| |] eqn:Ech; [|done|done].
  cbn [mbind Exec_bind].
  destruct (bool_decide (ch = IAC) && negb (f_ignoreIAC f)) eqn:E0;
    [|apply dispatch_sound].
  apply andb_true_iff in E0 as [_ Hig%negb_true_iff].
  destruct (iac (f_conn f) && bool_decide (cmd (f_conn f) = Byte.x00)) eqn:E1.
  { destruct (write blen f i) as [f1| |] eqn:Ew; [|done|done].
    apply write_Ok in Ew as (Hev & Hb & ? & ? & ? & Hig1 & ? & ?).
    destruct Hev as (Hw & Hl & ? & ? & ? & ?).
    cbn. intros [= <-]. unsetters. cbn.
    unfold stepped, evolves, buf_inv. cbn.
    split_and!; [try (done || lia) ..| left; split; [done|congruence]]. }
  destruct (iac (f_conn f)) eqn:E2.
  { destruct (index (buf (f_conn f)) (i - 1)) as [prev| |] eqn:Ep; [|done|done].
    cbn [mbind Exec_bind].
    destruct (bool_decide (prev = IAC)); [|apply dispatch_sound].
    destruct (slice _ 0 i) as [dst| |] eqn:Ed; [|done|done].
    cbn [mbind Exec_bind].
    destruct (slice _ (i + 1) _) as [src| |] eqn:Es; [|done|done].
    cbn [mbind Exec_bind].
    apply slice_Ok_inv in Ed as (_ & ? & ? & _ & Hd).
    intros [= <-]. unsetters. cbn.
    unfold stepped, evolves, buf_inv. cbn. lens.
    split_and!; [try (done || lia) ..| right; done]. }
  destruct (write blen f i) as [f1| |] eqn:Ew; [|done|done].
  apply write_Ok in Ew as (Hev & Hb & ? & ? & ? & Hig1 & ? & ?).
  destruct Hev as (Hw & Hl & ? & ? & ? & ?).
  cbn. intros [= <-]. unsetters. cbn.
  unfold stepped, evolves, buf_inv. cbn.
  split_and!; [try (done || lia) ..| left; split; [done|congruence]].
Qed.

Lemma step_no_OutOfFuel blen i f : step blen i f ≠ OutOfFuel.
Proof.
  unfold step.
  pose proof (dispatch_no_OutOfFuel i) as Hd.
  pose proof (write_no_OutOfFuel blen f i) as Hw.
  destruct (write blen f i); [| |done];
    repeat branch; try done; no_fuel.
Qed.

(** ** The scan loop *)

Lemma scan_O blen i f :
  scan 0 blen i f =
  if bool_decide (i < w (f_conn f) ∧ f_lastWrite f < blen) then OutOfFuel
  else Ok (Done f).
Proof. reflexivity. Qed.

Lemma scan_S fuel blen i f :
  scan (S fuel) blen i f =
  if bool_decide (i < w (f_conn f) ∧ f_lastWrite f < blen) then
    ctl ← step blen i f;
    match ctl with
    | Continue i' f' => scan fuel blen (i' + 1) f'
    | Break f' => Ok (Done f')
    | Return e f' => Ok (Returned e f')
    end
  else Ok (Done f).
Proof. reflexivity. Qed.

Lemma scan_sound fuel blen i f fin :
  scan fuel blen i f = Ok fin →
  evolves (f_conn f) (f_conn (end_frame fin)) ∧
  (0 ≤ i → buf_inv (f_conn f) → buf_inv (f_conn (end_frame fin))).
Proof.
  revert i f. induction fuel as [|fuel IH]; intros i f;
    rewrite ?scan_O, ?scan_S.
  - case_bool_decide; [done|]. intros [= <-]. split; [apply evolves_refl|done].
  - case_bool_decide as Hc; [|intros [= <-]; split; [apply evolves_refl|done]].
    destruct (step blen i f) as [ctl| |] eqn:Es; [|done|done].
    apply step_sound in Es. cbn [mbind Exec_bind].
    destruct ctl as [i' f'|f'|e f']; cbn in Es; destruct Es as (Hev & Hinv & Hi).
    + intros Hs. apply IH in Hs as [Hev' Hinv'].
      split; [by eapply evolves_trans|]. intros Hi0 Hb.
      apply Hinv'; [lia|]. apply Hinv; [done|lia].
    + intros [= <-]. cbn. split; [done|]. intros Hi0 Hb. apply Hinv; [done|lia].
    + intros [= <-]. cbn. split; [done|]. intros Hi0 Hb. apply Hinv; [done|lia].
Qed.

Lemma scan_fuel_enough fuel blen i f :
  (scan_measure i f ≤ fuel)%nat → scan fuel blen i f ≠ OutOfFuel.
Proof.
  revert i f. induction fuel as [|fuel IH]; intros i f Hm;
    rewrite ?scan_O, ?scan_S.
  - case_bool_decide as Hc; [|done]. unfold scan_measure in Hm.
    destruct (f_ignoreIAC f); lia.
  - case_bool_decide as Hc; [|done].
    destruct (step blen i f) as [ctl| |] eqn:Es; [|done|by apply step_no_OutOfFuel in Es].
    apply step_sound in Es. cbn [mbind Exec_bind].
    destruct ctl as [i' f'|f'|e f']; [|done|done].
    cbn in Es. destruct Es as ((Hw & _) & _ & Hi).
    apply IH. unfold scan_measure in *. rewrite Hw.
    destruct Hi as [[-> ->]|(-> & Hig & ->)].
    + destruct (f_ignoreIAC f); lia.
    + rewrite Hig in Hm. lia.
Qed.

(** ** The decode pass and the public read *)

Lemma read_sound c blen :
  buf_inv c → after (λ res, buf_inv (rr_conn res)) (read c blen).
Proof.
  intros Hinv. unfold read.
  destruct (fill c blen) as [[c1 err]| |] eqn:Ef; cbn [mbind Exec_bind];
    [|done|by apply fill_no_OutOfFuel in Ef].
  apply fill_buf_inv in Ef; [|done].
  destruct err as [e|]; [done|].
  destruct (scan _ _ _ _) as [fin| |] eqn:Es; cbn [mbind Exec_bind]; [|done|].
  - apply scan_sound in Es as [_ Hb]. specialize (Hb (proj1 Ef) Ef).
    destruct fin as [f|e f]; cbn in *; [|done].
    case_bool_decide; [|done].
    destruct (slice _ _ _) as [src| |] eqn:Esl; cbn [mbind Exec_bind];
      [|done|by apply slice_no_OutOfFuel in Esl].
    apply slice_Ok_inv in Esl as (? & ? & ? & _ & Hl).
    cbn. unfold buf_inv in *. cbn. lia.
  - apply scan_fuel_enough in Es; [done|].
    unfold scan_measure, scan_fuel. cbn. lia.
Qed.

Lemma Read_loop_sound attempts blen res :
  buf_inv (rr_conn res) →
  after (λ res', buf_inv (rr_conn res')) (Read_loop attempts blen res).
Proof.
  revert res. induction attempts as [|k IH]; intros res Hinv; cbn; [done|].
  case_bool_decide; [|done].
  pose proof (read_sound (rr_conn res) blen Hinv) as Hr.
  destruct (read _ _) as [res'| |]; cbn in *; [|done|done].
  by apply IH.
Qed.

Lemma Read_sound c blen :
  buf_inv c → after (λ res, buf_inv (rr_conn res)) (Read c blen).
Proof. intros. by apply Read_loop_sound. Qed.

Lemma Read_seq_sound c blens :
  buf_inv c → after buf_inv (Read_seq c blens).
Proof.
  revert c. induction blens as [|blen blens IH]; intros c Hinv;
    cbn [Read_seq]; [done|].
  pose proof (Read_sound c blen Hinv) as Hr.
  destruct (Read c blen) as [res| |]; cbn [mbind Exec_bind after] in *;
    [|done|done].
  by apply IH.
Qed.

Lemma NewConnection_buf_inv (t : T) options : buf_inv (NewConnection t options).
Proof.
  unfold NewConnection.
  set (c0 := mkConnection _ _ _ _ _ _ _ _ _ _ _).
  assert (buf_inv c0) as H0 by (unfold buf_inv; cbn; lia).
  revert H0. generalize c0. clear c0.
  induction options as [|h options IH]; intros c0 H0; cbn [foldl]; [done|].
  apply IH. exact H0.
Qed.

Lemma fill_sound c requestedBytes :
  buf_inv c → after (λ out, buf_inv out.1) (fill c requestedBytes).
Proof.
  intros Hinv. destruct (fill c requestedBytes) as [[c' err]| |] eqn:Ef; cbn;
    [by eapply fill_buf_inv|done|by apply fill_no_OutOfFuel in Ef].
Qed.

(** ** Single iterations, by parser state *)

(** A data byte outside any sequence is left where it is. *)
Lemma step_plain blen i f ch :
  f_ignoreIAC f = false → iac (f_conn f) = false →
  index (buf (f_conn f)) i = Ok ch → ch ≠ IAC →
  step blen i f = Ok (Continue i f).
Proof.
  intros Hig Hiac Hch Hne. unfold step. rewrite Hch. cbn [mbind Exec_bind].
  rewrite bool_decide_false by done. cbn [andb].
  unfold dispatch. destruct f as [c n lw ig b]. cbn in *. subst ig.
  rewrite Hiac. reflexivity.
Qed.

(** A marker outside any sequence flushes the data before it and opens a
    sequence. *)
Lemma step_open blen i f f1 :
  f_ignoreIAC f = false → iac (f_conn f) = false →
  index (buf (f_conn f)) i = Ok IAC → write blen f i = Ok f1 →
  step blen i f = Ok (Continue i (with_conn f1 (with_iac (f_conn f1) true))).
Proof.
  intros Hig Hiac Hch Hw. unfold step. rewrite Hch. cbn [mbind Exec_bind].
  rewrite bool_decide_true by done. rewrite Hig, Hiac. cbn [andb negb].
  rewrite Hw. reflexivity.
Qed.

(** A marker right after the opening marker is the doubled marker: the
    pending bytes, the first marker among them, are flushed and the second
    marker is skipped. *)
Lemma step_doubled blen i f f1 :
  f_ignoreIAC f = false → iac (f_conn f) = true → cmd (f_conn f) = Byte.x00 →
  index (buf (f_conn f)) i = Ok IAC → write blen f i = Ok f1 →
  step blen i f =
  Ok (Continue i
        (with_conn f1
           (with_iac (with_r (f_conn f1) (r (f_conn f1) + 1)) false))).
Proof.
  intros Hig Hiac Hcmd Hch Hw. unfold step. rewrite Hch. cbn [mbind Exec_bind].
  rewrite bool_decide_true by done. rewrite Hig, Hiac, Hcmd. cbn [andb negb].
  rewrite bool_decide_true by done. rewrite Hw. reflexivity.
Qed.

(** The byte after the opening marker is the command. *)
Lemma step_command blen i f ch :
  f_ignoreIAC f = false → iac (f_conn f) = true → cmd (f_conn f) = Byte.x00 →
  index (buf (f_conn f)) i = Ok ch → ch ≠ IAC → ch ≠ SB →
  step blen i f = Ok (Continue i (with_conn f (with_cmd (f_conn f) ch))).
Proof.
  intros Hig Hiac Hcmd Hch Hne Hsb. unfold step. rewrite Hch.
  cbn [mbind Exec_bind]. rewrite bool_decide_false by done. cbn [andb].
  unfold dispatch. destruct f as [c n lw ig b]. cbn in *. subst ig.
  rewrite Hiac, Hcmd. rewrite bool_decide_true by done. cbn [andb].
  rewrite bool_decide_false by done. reflexivity.
Qed.

(** The command [SB] with the option byte and one more byte in the buffer:
    the cursor moves to the start of the body. *)
Lemma step_SB blen i f :
  f_ignoreIAC f = false → iac (f_conn f) = true → cmd (f_conn f) = Byte.x00 →
  index (buf (f_conn f)) i = Ok SB → i + 2 < w (f_conn f) →
  step blen i f =
  Ok (Continue i (with_conn f (with_r (with_cmd (f_conn f) SB) (i + 2)))).
Proof.
  intros Hig Hiac Hcmd Hch Hw. unfold step. rewrite Hch.
  cbn [mbind Exec_bind]. rewrite bool_decide_false by done. cbn [andb].
  unfold dispatch. destruct f as [c n lw ig b]. cbn in *. subst ig.
  rewrite Hiac, Hcmd. rewrite bool_decide_true by done. cbn [andb].
  rewrite bool_decide_true by done. rewrite bool_decide_false by lia.
  reflexivity.
Qed.

(** Inside a sequence with the command known, a byte that is not an escaped
    marker goes to [dispatch]. *)
Lemma step_to_dispatch blen i f ch prev :
  f_ignoreIAC f = false → iac (f_conn f) = true → cmd (f_conn f) ≠ Byte.x00 →
  index (buf (f_conn f)) i = Ok ch →
  index (buf (f_conn f)) (i - 1) = Ok prev →
  ¬ (ch = IAC ∧ prev = IAC) →
  step blen i f = dispatch i ch f.
Proof.
  intros Hig Hiac Hcmd Hch Hprev Hne. unfold step. rewrite Hch.
  cbn [mbind Exec_bind]. rewrite Hig, Hiac. cbn [andb negb].
  rewrite (bool_decide_false (cmd _ = _)) by done. rewrite andb_true_r.
  destruct (bool_decide (ch = IAC)) eqn:E; [|done].
  apply bool_decide_eq_true in E. rewrite Hprev. cbn [mbind Exec_bind].
  rewrite bool_decide_false; [done|]. intros ->. by apply Hne.
Qed.

(** The option byte of a negotiation command: the dispatch runs and the
    sequence ends. *)
Lemma dispatch_option i f o :
  iac (f_conn f) = true → cmd (f_conn f) ≠ Byte.x00 → cmd (f_conn f) ≠ SB →
  option_ (f_conn f) = Byte.x00 →
  dispatch i o f =
  let '(c1, _, err) := handleNegotiation (with_option (f_conn f) o) in
  match err with
  | Some e => Ok (Return e (with_conn (with_ignoreIAC f false) c1))
  | None => Ok (Continue i (with_conn (with_ignoreIAC f false) (endIAC c1 i)))
  end.
Proof.
  intros Hiac Hcmd Hsb Hopt. unfold dispatch. cbn.
  rewrite Hiac, Hopt. rewrite (bool_decide_false (cmd _ = Byte.x00)) by done.
  cbn [andb]. rewrite bool_decide_true by done.
  rewrite bool_decide_true by done. reflexivity.
Qed.

(** The option byte of a subnegotiation is kept. *)
Lemma dispatch_SB_option i f o :
  iac (f_conn f) = true → cmd (f_conn f) = SB →
  option_ (f_conn f) = Byte.x00 →
  dispatch i o f =
  Ok (Continue i (with_conn (with_ignoreIAC f false) (with_option (f_conn f) o))).
Proof.
  intros Hiac Hcmd Hopt. unfold dispatch. cbn.
  rewrite Hiac, Hopt, Hcmd. rewrite (bool_decide_false (SB = Byte.x00)) by done.
  cbn [andb]. rewrite bool_decide_true by done.
  rewrite bool_decide_false; [done|]. intros Hne. by apply Hne.
Qed.

(** A body byte that neither ends the subnegotiation nor is an escaped
    marker is left where it is. *)
Lemma step_body blen i f ch prev :
  f_ignoreIAC f = false → iac (f_conn f) = true → cmd (f_conn f) = SB →
  option_ (f_conn f) ≠ Byte.x00 →
  index (buf (f_conn f)) i = Ok ch →
  index (buf (f_conn f)) (i - 1) = Ok prev →
  ¬ (prev = IAC ∧ (ch = IAC ∨ ch = SE)) →
  step blen i f = Ok (Continue i f).
Proof.
  intros Hig Hiac Hcmd Hopt Hch Hprev Hne.
  rewrite (step_to_dispatch blen i f ch prev); try done.
  - unfold dispatch. destruct f as [c n lw ig b]. cbn in *. subst ig.
    rewrite Hiac, Hcmd. rewrite (bool_decide_false (SB = Byte.x00)) by done.
    rewrite (bool_decide_false (option_ c = _)) by done. cbn [andb].
    rewrite bool_decide_true by done.
    destruct (bool_decide (ch = SE)) eqn:E; [|done].
    apply bool_decide_eq_true in E. rewrite Hprev. cbn [mbind Exec_bind].
    rewrite bool_decide_false; [done|]. intros ->. apply Hne. by split; [|right].
  - by rewrite Hcmd.
  - intros [-> ->]. apply Hne. by split; [|left].
Qed.

(** The terminator: the handler of the captured option, when there is one,
    receives the bytes between the cursor and the marker. *)
Lemma step_SE blen i f body :
  f_ignoreIAC f = false → iac (f_conn f) = true → cmd (f_conn f) = SB →
  option_ (f_conn f) ≠ Byte.x00 →
  index (buf (f_conn f)) i = Ok SE →
  index (buf (f_conn f)) (i - 1) = Ok IAC →
  slice (buf (f_conn f)) (r (f_conn f)) (i - 1) = Ok body →
  step blen i f =
  Ok (Continue i
        (with_conn f
           (endIAC
              match OptionHandlers (f_conn f) !! option_ (f_conn f) with
              | Some h =>
                  callback (f_conn f) (handleSB h body) (HandleSB h body)
              | None => f_conn f
              end i))).
Proof.
  intros Hig Hiac Hcmd Hopt Hch Hprev Hbody.
  rewrite (step_to_dispatch blen i f SE IAC); try done.
  - unfold dispatch. destruct f as [c n lw ig b]. cbn in *. subst ig.
    rewrite Hiac, Hcmd. rewrite (bool_decide_false (SB = Byte.x00)) by done.
    rewrite (bool_decide_false (option_ c = _)) by done. cbn [andb].
    rewrite !bool_decide_true by done. cbn [andb].
    rewrite Hprev. cbn [mbind Exec_bind]. rewrite bool_decide_true by done.
    destruct (OptionHandlers c !! option_ c); [rewrite Hbody|]; reflexivity.
  - by rewrite Hcmd.
  - by intros [? _].
Qed.

(** ** A pass over freshly arrived bytes *)

(** With nothing buffered, [fill] leaves the arrived bytes at the front of
    the buffer. *)
Lemma fill_ready c blen wire t err :
  ready c → arrives c blen wire t err →
  ∃ junk,
    fill c blen =
    Ok (mkConnection t (OptionHandlers c) (wire ++ junk) 0
          (Z.of_nat (length wire)) false Byte.x00 Byte.x00
          (clientWont c) (clientDont c)
          (trace c ++
           [ConnRead (Z.to_nat (Z.max (Z.of_nat (length (buf c))) blen))
              wire err]),
        err).
Proof.
  intros ((Hr & Hrw & Hw) & Hrw' & Hiac & Hcmd & Hopt) Harr.
  unfold arrives in Harr.
  pose proof (conn_Read_len (Conn c)
    (Z.to_nat (Z.max (Z.of_nat (length (buf c))) blen))) as Hlen.
  rewrite Harr in Hlen. cbn in Hlen.
  destruct c as [t0 hs bf r0 w0 ia cm op cw cd tr]. cbn in *. subst.
  unfold fill. cbn [r w buf Conn].
  set (c1 := if bool_decide (w0 > 0) then _ else _).
  assert (∃ bf1, length bf1 = length bf ∧
    c1 = Ok (mkConnection t0 hs bf1 0 0 false Byte.x00 Byte.x00 cw cd tr))
    as (bf1 & Hbf1 & ->).
  { subst c1. case_bool_decide.
    - rewrite slice_in_range by lia. cbn [mbind Exec_bind]. unsetters. cbn.
      eexists. split; [apply copy_length|]. do 2 f_equal. lia.
    - exists bf. split; [done|]. do 2 f_equal; lia. }
  cbn [mbind Exec_bind r w buf Conn].
  set (c2 := if bool_decide (_ < blen) then _ else _).
  assert (∃ bf2,
    length bf2 = Z.to_nat (Z.max (Z.of_nat (length bf)) blen) ∧
    c2 = Ok (mkConnection t0 hs bf2 0 0 false Byte.x00 Byte.x00 cw cd tr))
    as (bf2 & Hbf2 & ->).
  { subst c2. case_bool_decide.
    - rewrite slice_in_range by lia. cbn [mbind Exec_bind]. unsetters. cbn.
      eexists. split; [|reflexivity]. lens. lia.
    - exists bf1. split; [lia|done]. }
  cbn [mbind Exec_bind r w buf Conn].
  rewrite slice_in_range by lia. cbn [mbind Exec_bind].
  rewrite Z.sub_0_r, Nat2Z.id. change (Z.to_nat 0) with 0%nat.
  rewrite drop_0, firstn_all, Hbf2, Harr. unsetters. cbn.
  exists (drop (length wire) bf2). do 3 f_equal.
  unfold copy. cbn. rewrite Nat.min_r by lia. by rewrite firstn_all.
Qed.

(** ** Negotiation commands *)

(** A complete three-byte negotiation arriving on a ready connection: the
    pass is the dispatch on the captured command and option, and nothing
    reaches the caller. *)
Lemma read_negotiation c blen k o t :
  ready c → 0 < blen → arrives c blen [IAC; k; o] t None →
  k ≠ Byte.x00 → k ≠ IAC → k ≠ SB →
  ∃ junk,
    read c blen =
    let '(c2, _, err) :=
      handleNegotiation
        (mkConnection t (OptionHandlers c) ([IAC; k; o] ++ junk) 0 3
           true k o (clientWont c) (clientDont c)
           (trace c ++
            [ConnRead (Z.to_nat (Z.max (Z.of_nat (length (buf c))) blen))
               [IAC; k; o] None])) in
    match err with
    | Some e => Ok (mkReadResult c2 0 (Some e) [])
    | None => Ok (mkReadResult (endIAC c2 2) 0 None [])
    end.
Proof.
  intros Hready Hblen Harr Hk0 Hki Hks.
  destruct (fill_ready c blen _ t None Hready Harr) as (junk & Hfill).
  exists junk. unfold read. rewrite Hfill. cbn [mbind Exec_bind].
  unfold scan_fuel. cbn [r w length].
  change (Z.to_nat (2 * (Z.of_nat 3 - 0) + 1)) with 7%nat.
  set (tr := trace c ++ _). set (hs := OptionHandlers c).
  set (cw := clientWont c). set (cd := clientDont c).
  (* the opening marker *)
  rewrite scan_S. rewrite bool_decide_true by (proj; cbn [length]; lia).
  erewrite step_open; [|done|done|by apply index_lookup|reflexivity].
  cbn [mbind Exec_bind]. unsetters. proj.
  (* the command *)
  rewrite scan_S. rewrite bool_decide_true by (proj; cbn [length]; lia).
  erewrite (step_command _ _ _ k); [|done|done|done|by apply index_lookup|done|done].
  cbn [mbind Exec_bind]. unsetters. proj.
  (* the option *)
  rewrite scan_S. rewrite bool_decide_true by (proj; cbn [length]; lia).
  erewrite (step_to_dispatch _ _ _ o k);
    [|done|done|done|by apply index_lookup|by apply index_lookup|by intros [_ ?]].
  rewrite dispatch_option by done.
  unsetters. proj.
  destruct (handleNegotiation _) as [[c2 nn] err] eqn:Eh.
  apply handleNegotiation_evolves in Eh as ((Hw & _) & Hr & Hb & _).
  cbn in Hw, Hr, Hb.
  destruct err as [e|]; cbn [mbind Exec_bind]; [done|].
  rewrite scan_S. rewrite bool_decide_false; [|proj; lia].
  cbn [mbind Exec_bind f_conn f_lastWrite f_n f_b].
  proj. rewrite bool_decide_true by lia.
  rewrite Hw, Hb. rewrite slice_in_range by (cbn [length app]; lia).
  proj. change (Z.to_nat (Z.of_nat 3 - (0 + 1 + 1 + 1))) with 0%nat.
  rewrite take_0, take_nil. cbn [length]. rewrite Nat.min_0_r.
  unfold endIAC. unsetters. proj. rewrite ?Hw, ?Hb. reflexivity.
Qed.

Lemma read_WILL_unhandled c blen o t t' nn e :
  ready c → 0 < blen → arrives c blen [IAC; WILL; o] t None →
  OptionHandlers c !! o = None →
  conn_Write t [IAC; DONT; o] = (t', nn, e) →
  ∃ res, read c blen = Ok res ∧
    silent_pass c blen [IAC; WILL; o] [ConnWrite [IAC; DONT; o] nn e] res ∧
    rr_err res = e ∧ Conn (rr_conn res) = t' ∧ same_refusals c (rr_conn res).
Proof.
  intros Hready Hblen Harr Hh Hwr.
  destruct (read_negotiation c blen WILL o t) as (junk & ->); try done.
  unfold handleNegotiation, writeBytes, Conn_Write. proj.
  rewrite bool_decide_true by done. rewrite Hh, Hwr.
  destruct e; eexists; (split; [reflexivity|]);
    unfold silent_pass, same_refusals; cbn; rewrite <- ?app_assoc; done.
Qed.

Lemma read_DO_unhandled c blen o t t' nn e :
  ready c → 0 < blen → arrives c blen [IAC; DO; o] t None →
  OptionHandlers c !! o = None →
  conn_Write t [IAC; WONT; o] = (t', nn, e) →
  ∃ res, read c blen = Ok res ∧
    silent_pass c blen [IAC; DO; o] [ConnWrite [IAC; WONT; o] nn e] res ∧
    rr_err res = e ∧ Conn (rr_conn res) = t' ∧ same_refusals c (rr_conn res).
Proof.
  intros Hready Hblen Harr Hh Hwr.
  destruct (read_negotiation c blen DO o t) as (junk & ->); try done.
  unfold handleNegotiation, writeBytes, Conn_Write. proj.
  rewrite !(bool_decide_false (DO = _)) by done.
  rewrite bool_decide_true by done. rewrite Hh, Hwr.
  destruct e; eexists; (split; [reflexivity|]);
    unfold silent_pass, same_refusals; cbn; rewrite <- ?app_assoc; done.
Qed.

Lemma read_WILL_handled c blen o t h :
  ready c → 0 < blen → arrives c blen [IAC; WILL; o] t None →
  OptionHandlers c !! o = Some h →
  ∃ res, read c blen = Ok res ∧
    silent_pass c blen [IAC; WILL; o] [HandleWill h] res ∧
    rr_err res = None ∧ Conn (rr_conn res) = handleWill h t ∧
    same_refusals c (rr_conn res).
Proof.
  intros Hready Hblen Harr Hh.
  destruct (read_negotiation c blen WILL o t) as (junk & ->); try done.
  unfold handleNegotiation. proj.
  rewrite bool_decide_true by done. rewrite Hh.
  eexists; (split; [reflexivity|]);
    unfold silent_pass, same_refusals; cbn; rewrite <- ?app_assoc; done.
Qed.

Lemma read_DO_handled c blen o t h :
  ready c → 0 < blen → arrives c blen [IAC; DO; o] t None →
  OptionHandlers c !! o = Some h →
  ∃ res, read c blen = Ok res ∧
    silent_pass c blen [IAC; DO; o] [HandleDo h] res ∧
    rr_err res = None ∧ Conn (rr_conn res) = handleDo h t ∧
    same_refusals c (rr_conn res).
Proof.
  intros Hready Hblen Harr Hh.
  destruct (read_negotiation c blen DO o t) as (junk & ->); try done.
  unfold handleNegotiation. proj.
  rewrite !(bool_decide_false (DO = _)) by done.
  rewrite bool_decide_true by done. rewrite Hh.
  eexists; (split; [reflexivity|]);
    unfold silent_pass, same_refusals; cbn; rewrite <- ?app_assoc; done.
Qed.

Lemma read_WONT c blen o t :
  ready c → 0 < blen → arrives c blen [IAC; WONT; o] t None →
  ∃ res, read c blen = Ok res ∧
    silent_pass c blen [IAC; WONT; o] [] res ∧
    rr_err res = None ∧ Conn (rr_conn res) = t ∧
    clientWont (rr_conn res) = {[o]} ∪ clientWont c ∧
    clientDont (rr_conn res) = clientDont c.
Proof.
  intros Hready Hblen Harr.
  destruct (read_negotiation c blen WONT o t) as (junk & ->); try done.
  unfold handleNegotiation. proj.
  rewrite !(bool_decide_false (WONT = _)) by done.
  rewrite bool_decide_true by done.
  eexists; (split; [reflexivity|]); unfold silent_pass; cbn; done.
Qed.

Lemma read_DONT c blen o t :
  ready c → 0 < blen → arrives c blen [IAC; DONT; o] t None →
  ∃ res, read c blen = Ok res ∧
    silent_pass c blen [IAC; DONT; o] [] res ∧
    rr_err res = None ∧ Conn (rr_conn res) = t ∧
    clientWont (rr_conn res) = clientWont c ∧
    clientDont (rr_conn res) = {[o]} ∪ clientDont c.
Proof.
  intros Hready Hblen Harr.
  destruct (read_negotiation c blen DONT o t) as (junk & ->); try done.
  unfold handleNegotiation. proj.
  rewrite !(bool_decide_false (DONT = _)) by done.
  rewrite bool_decide_true by done.
  eexists; (split; [reflexivity|]); unfold silent_pass; cbn; done.
Qed.

(** ** What a pass may change outside the buffer *)

Lemma fill_frame c requestedBytes c' err :
  fill c requestedBytes = Ok (c', err) →
  clientWont c' = clientWont c ∧ clientDont c' = clientDont c ∧
  OptionHandlers c' = OptionHandlers c ∧
  passes (trace c') = S (passes (trace c)).
Proof.
  unfold fill.
  set (c1 := if bool_decide (r c > 0) then _ else _).
  assert (after (λ c1, clientWont c1 = clientWont c ∧
    clientDont c1 = clientDont c ∧ OptionHandlers c1 = OptionHandlers c ∧
    trace c1 = trace c) c1 ∨ c1 = OutOfFuel) as Hc1.
  { subst c1. case_bool_decide; [|by left].
    destruct (slice _ _ _); proj; [by left|by left|by right]. }
  destruct c1 as [c1| |]; proj; [|done|done].
  destruct Hc1 as [(Hcw1 & Hcd1 & Hh1 & Htr1)|]; [|done].
  set (c2 := if bool_decide (_ < requestedBytes) then _ else _).
  assert (after (λ c2, clientWont c2 = clientWont c ∧
    clientDont c2 = clientDont c ∧ OptionHandlers c2 = OptionHandlers c ∧
    trace c2 = trace c) c2 ∨ c2 = OutOfFuel) as Hc2.
  { subst c2. case_bool_decide; [|by left].
    destruct (slice _ _ _); proj; [by left|by left|by right]. }
  destruct c2 as [c2| |]; proj; [|done|done].
  destruct Hc2 as [(Hcw2 & Hcd2 & Hh2 & Htr2)|]; [|done].
  destruct (slice _ _ _) as [p| |]; proj; [|done|done].
  destruct (conn_Read _ _) as [[t data] e].
  intros [= <- <-]. unsetters. proj. rewrite passes_snoc, Htr2.
  split_and!; try done. cbn [is_read]. lia.
Qed.

Lemma read_frame c blen :
  after (λ res,
    clientWont c ⊆ clientWont (rr_conn res) ∧
    clientDont c ⊆ clientDont (rr_conn res) ∧
    OptionHandlers (rr_conn res) = OptionHandlers c ∧
    passes (trace (rr_conn res)) = S (passes (trace c)))
    (read c blen).
Proof.
  unfold read.
  destruct (fill c blen) as [[c1 err]| |] eqn:Ef; proj;
    [|done|by apply fill_no_OutOfFuel in Ef].
  apply fill_frame in Ef as (Hcw & Hcd & Hh & Hp).
  destruct err as [e|]; [cbn [after]; proj; rewrite Hcw, Hcd; done|].
  destruct (scan _ _ _ _) as [fin| |] eqn:Es; proj; [|done|].
  - apply scan_sound in Es as [(_ & _ & Hh' & Hcw' & Hcd' & Hp') _].
    proj. proj in Hh'. proj in Hcw'. proj in Hcd'. proj in Hp'.
    rewrite Hcw in Hcw'. rewrite Hcd in Hcd'. rewrite Hh in Hh'.
    rewrite Hp in Hp'.
    destruct fin as [f|e f]; cbn [end_frame] in *; [|done].
    case_bool_decide; [|done].
    destruct (slice _ _ _) as [src| |] eqn:Esl; proj;
      [|done|by apply slice_no_OutOfFuel in Esl].
    cbn [after]. proj. done.
  - apply scan_fuel_enough in Es; [done|].
    unfold scan_measure, scan_fuel. cbn. lia.
Qed.

Lemma Read_loop_frame attempts blen res :
  after (λ res',
    clientWont (rr_conn res) ⊆ clientWont (rr_conn res') ∧
    clientDont (rr_conn res) ⊆ clientDont (rr_conn res') ∧
    (passes (trace (rr_conn res')) ≤ passes (trace (rr_conn res)) + attempts)%nat)
    (Read_loop attempts blen res).
Proof.
  revert res. induction attempts as [|k IH]; intros res; cbn [Read_loop].
  { cbn. split_and!; [done|done|lia]. }
  case_bool_decide; [|cbn; split_and!; [done|done|lia]].
  pose proof (read_frame (rr_conn res) blen) as Hr.
  destruct (read _ _) as [res'| |]; proj; [|done|done].
  cbn in Hr. destruct Hr as (Hcw & Hcd & _ & Hp).
  specialize (IH res'). destruct (Read_loop k blen res'); [|done|done].
  cbn in *. destruct IH as (? & ? & ?).
  split_and!; [by etrans|by etrans|lia].
Qed.

(** ** Runs of iterations that change nothing *)

Lemma scan_skip k fuel blen i f :
  (∀ j, i ≤ j < i + Z.of_nat k → step blen j f = Ok (Continue j f)) →
  i + Z.of_nat k ≤ w (f_conn f) → f_lastWrite f < blen →
  scan (k + fuel) blen i f = scan fuel blen (i + Z.of_nat k) f.
Proof.
  revert i. induction k as [|k IH]; intros i Hstep Hw Hlw.
  { cbn [Nat.add]. f_equal. lia. }
  cbn [Nat.add]. rewrite scan_S. rewrite bool_decide_true by lia.
  rewrite Hstep by lia. proj. rewrite IH; [f_equal; lia| |lia|done].
  intros j Hj. apply Hstep. lia.
Qed.

(** Such a run up to the end of the buffered bytes ends the loop, whether
    or not the caller's buffer still has room. *)
Lemma scan_to_end k fuel blen i f :
  (∀ j, i ≤ j < i + Z.of_nat k → step blen j f = Ok (Continue j f)) →
  i + Z.of_nat k = w (f_conn f) → (k ≤ fuel)%nat →
  scan fuel blen i f = Ok (Done f).
Proof.
  intros Hstep Hw Hfuel.
  destruct (decide (f_lastWrite f < blen)) as [Hlw|Hlw].
  - replace fuel with (k + (fuel - k))%nat by lia.
    rewrite scan_skip by (done || lia).
    destruct (fuel - k)%nat; rewrite ?scan_O, ?scan_S;
      by rewrite bool_decide_false by lia.
  - destruct fuel; rewrite ?scan_O, ?scan_S;
      by rewrite bool_decide_false by lia.
Qed.

(** ** The closure [write] on an explicit frame *)

Lemma write_flush blen (t : T) hs bf r0 w0 ia cm op cw cd tr n lw ig b e :
  0 ≤ r0 ≤ e → e ≤ Z.of_nat (length bf) → 0 ≤ lw ≤ blen →
  let src := take (Z.to_nat (e - r0)) (drop (Z.to_nat r0) bf) in
  let room := Z.to_nat (blen - lw) in
  let nn := Z.of_nat (Nat.min room (length src)) in
  write blen (mkFrame (mkConnection t hs bf r0 w0 ia cm op cw cd tr) n lw ig b) e =
  Ok (mkFrame (mkConnection t hs bf (r0 + nn) w0 ia cm op cw cd tr)
        (n + nn) (lw + nn) ig (b ++ take room src)).
Proof.
  intros Hr He Hlw src room nn. unfold write. proj.
  case_bool_decide as Hre.
  - subst e. subst nn src. rewrite Z.sub_diag. change (Z.to_nat 0) with 0%nat.
    rewrite take_0, take_nil. cbn [length]. rewrite Nat.min_0_r.
    change (Z.of_nat 0) with 0. rewrite !Z.add_0_r, app_nil_r. reflexivity.
  - rewrite bool_decide_true by lia. rewrite slice_in_range by lia.
    reflexivity.
Qed.

(** ** Lookups in a buffer given by its parts *)

Lemma index_app_l (s1 s2 : list byte) i x :
  0 ≤ i → s1 !! Z.to_nat i = Some x → index (s1 ++ s2) i = Ok x.
Proof.
  intros Hi Hx. apply index_lookup; [done|]. by apply lookup_app_l_Some.
Qed.

Lemma index_app_r (s1 s2 : list byte) i :
  Z.of_nat (length s1) ≤ i →
  index (s1 ++ s2) i = index s2 (i - Z.of_nat (length s1)).
Proof.
  intros Hi. unfold index. rewrite !bool_decide_true by lia.
  rewrite lookup_app_r by lia.
  by replace (Z.to_nat i - length s1)%nat
    with (Z.to_nat (i - Z.of_nat (length s1))) by lia.
Qed.

End Reader.

(** ** The doubled marker *)

Section Doubled.
Context {T : Type} `{!Transport T}.
Implicit Type c : Connection T.

(** The two iterations over a doubled marker met outside any sequence:
    the pending bytes and one literal marker go to the caller, the cursor
    moves past the pair and the parser is outside any sequence again. *)
Lemma scan_doubled_marker fuel blen i (t : T) hs bf r0 w0 op cw cd tr n lw b :
  0 ≤ r0 ≤ i → i + 1 < w0 → w0 ≤ Z.of_nat (length bf) →
  0 ≤ lw → lw + (i - r0) < blen →
  index bf i = Ok IAC → index bf (i + 1) = Ok IAC →
  let pending := take (Z.to_nat (i - r0)) (drop (Z.to_nat r0) bf) in
  scan (S (S fuel)) blen i
    (mkFrame (mkConnection t hs bf r0 w0 false Byte.x00 op cw cd tr)
       n lw false b) =
  scan fuel blen (i + 2)
    (mkFrame (mkConnection t hs bf (i + 2) w0 false Byte.x00 op cw cd tr)
       (n + (i - r0) + 1) (lw + (i - r0) + 1) false (b ++ pending ++ [IAC])).
Proof.
  intros Hr Hw Hbf Hlw Hroom Hi1 Hi2 pending.
  assert (Hlen : length pending = Z.to_nat (i - r0))
    by (subst pending; lens; lia).
  (* the first marker *)
  rewrite scan_S. rewrite bool_decide_true by (proj; lia).
  erewrite step_open; [|done|done|exact Hi1|apply write_flush; lia].
  fold pending. rewrite Hlen. proj. unsetters. proj.
  rewrite Nat.min_r by lia. rewrite (take_ge pending) by lia.
  (* the second marker *)
  rewrite scan_S. rewrite bool_decide_true by (proj; lia).
  erewrite step_doubled; [|done|done|done|exact Hi2|apply write_flush; lia].
  proj. unsetters. proj.
  apply index_Ok_inv in Hi1 as [_ Hi1].
  replace (Z.to_nat (r0 + Z.of_nat (Z.to_nat (i - r0)))) with (Z.to_nat i)
    by lia.
  rewrite (drop_S _ _ _ Hi1).
  replace (Z.to_nat (i + 1 - (r0 + Z.of_nat (Z.to_nat (i - r0)))))
    with 1%nat by lia.
  cbn [firstn length]. rewrite take_0. cbn [length].
  rewrite Nat.min_r by lia.
  replace (Z.to_nat (blen - (lw + Z.of_nat (Z.to_nat (i - r0)))))
    with (S (Z.to_nat (blen - lw - (i - r0) - 1))) by lia.
  cbn [firstn]. rewrite take_nil, <- app_assoc.
  replace (i + 1 + 1) with (i + 2) by lia.
  f_equal. f_equal; [f_equal|..]; lia.
Qed.

(** X17: where two consecutive markers do yield one literal 0xFF. With
    [pre] and [post] free of markers, the bytes
    [pre ++ [IAC; IAC] ++ post] arriving in one transport read on a
    connection with nothing buffered, and a caller buffer with room for
    [pre] and the literal: the pass delivers [pre ++ [IAC] ++ post], cut
    to the length of the caller's buffer, invokes no handler, writes
    nothing to the transport and leaves the parser outside any
    sequence. *)
Theorem doubled_marker_literal c blen pre post t :
  ready c → IAC ∉ pre → IAC ∉ post → Z.of_nat (length pre) < blen →
  arrives c blen (pre ++ [IAC; IAC] ++ post) t None →
  ∃ res, read c blen = Ok res ∧ rr_err res = None ∧
    rr_b res = take (Z.to_nat blen) (pre ++ IAC :: post) ∧
    rr_n res = Z.of_nat (length (rr_b res)) ∧
    trace (rr_conn res) =
      trace c ++
      [ConnRead (Z.to_nat (Z.max (Z.of_nat (length (buf c))) blen))
         (pre ++ [IAC; IAC] ++ post) None] ∧
    idle (rr_conn res) ∧ Conn (rr_conn res) = t ∧
    same_refusals c (rr_conn res).
Proof.
  intros Hready Hpre Hpost Hroom Harr.
  destruct (fill_ready c blen _ t None Hready Harr) as (junk & Hfill).
  unfold read. rewrite Hfill. proj. unfold scan_fuel. proj.
  set (tr := trace c ++ _). set (hs := OptionHandlers c).
  set (cw := clientWont c). set (cd := clientDont c).
  set (p := length pre) in *. set (q := length post).
  assert (length (pre ++ [IAC; IAC] ++ post) = (p + (2 + q))%nat) as Hlen
    by (rewrite !length_app; reflexivity).
  rewrite Hlen.
  set (bf := (pre ++ [IAC; IAC] ++ post) ++ junk).
  assert (Hbf : Z.of_nat (p + (2 + q)) ≤ Z.of_nat (length bf))
    by (subst bf; rewrite length_app, Hlen; lia).
  (* lookups *)
  assert (Hidx_pre : ∀ j, 0 ≤ j < Z.of_nat p →
    ∃ x, x ≠ IAC ∧ index bf j = Ok x).
  { intros j Hj. destruct (lookup_lt_is_Some_2 pre (Z.to_nat j)) as [x Hx];
      [lia|]. exists x. split.
    - intros ->. apply Hpre. by eapply list_elem_of_lookup_2.
    - subst bf. apply index_app_l; [lia|]. by apply lookup_app_l_Some. }
  assert (Hidx_1 : index bf (Z.of_nat p) = Ok IAC).
  { subst bf. apply index_app_l; [lia|]. rewrite Nat2Z.id.
    by rewrite lookup_app_r, Nat.sub_diag by done. }
  assert (Hidx_2 : index bf (Z.of_nat p + 1) = Ok IAC).
  { subst bf. apply index_app_l; [lia|].
    replace (Z.to_nat (Z.of_nat p + 1)) with (p + 1)%nat by lia.
    rewrite lookup_app_r by (fold p; lia).
    by replace (p + 1 - length pre)%nat with 1%nat by (fold p; lia). }
  assert (Hidx_post : ∀ j, Z.of_nat p + 2 ≤ j < Z.of_nat (p + (2 + q)) →
    ∃ x, x ≠ IAC ∧ index bf j = Ok x).
  { intros j Hj.
    destruct (lookup_lt_is_Some_2 post (Z.to_nat j - p - 2)) as [x Hx];
      [fold q; lia|]. exists x. split.
    - intros ->. apply Hpost. by eapply list_elem_of_lookup_2.
    - subst bf. apply index_app_l; [lia|].
      rewrite lookup_app_r by (fold p; lia). fold p.
      replace (Z.to_nat j - p)%nat with (S (S (Z.to_nat j - p - 2))) by lia.
      exact Hx. }
  (* the data before the pair *)
  replace (Z.to_nat (2 * (Z.of_nat (p + (2 + q)) - 0) + 1))
    with (p + S (S (q + (p + q + 3))))%nat by lia.
  rewrite scan_skip; proj; [|
    intros j Hj; destruct (Hidx_pre j) as (x & Hx & Hix); [lia|];
    by apply (step_plain _ _ _ x) |lia|lia].
  (* the pair *)
  replace (0 + Z.of_nat p) with (Z.of_nat p) by lia.
  rewrite scan_doubled_marker by (done || lia).
  assert (Hpending :
    take (Z.to_nat (Z.of_nat p - 0)) (drop (Z.to_nat 0) bf) = pre).
  { replace (Z.to_nat (Z.of_nat p - 0)) with p by lia.
    change (Z.to_nat 0) with 0%nat. rewrite drop_0. subst bf p.
    by rewrite <- app_assoc, take_app_length. }
  rewrite Hpending.
  (* the data after the pair *)
  rewrite (scan_to_end q); proj; [| |lia|lia].
  2:{ intros j Hj. destruct (Hidx_post j) as (x & Hx & Hix); [lia|].
      by apply (step_plain _ _ _ x). }
  (* the trailing flush *)
  rewrite bool_decide_true by lia. rewrite slice_in_range by lia. proj.
  assert (Hsrc :
    take (Z.to_nat (Z.of_nat (p + (2 + q)) - (Z.of_nat p + 2)))
      (drop (Z.to_nat (Z.of_nat p + 2)) bf) = post).
  { replace (Z.to_nat (Z.of_nat (p + (2 + q)) - (Z.of_nat p + 2)))
      with q by lia.
    replace (Z.to_nat (Z.of_nat p + 2)) with (p + 2)%nat by lia.
    subst bf p q. rewrite <- !app_assoc.
    rewrite drop_app_add'; [|done]. cbn [skipn app].
    by rewrite drop_0, take_app_length. }
  rewrite Hsrc. eexists. split; [reflexivity|]. proj.
  assert (Hout : ([] ++ pre ++ [IAC]) ++
      take (Z.to_nat (blen - (0 + (Z.of_nat p - 0) + 1))) post =
    take (Z.to_nat blen) (pre ++ IAC :: post)).
  { cbn [app]. rewrite take_app_ge by (fold p; lia). fold p.
    replace (Z.to_nat blen - p)%nat
      with (S (Z.to_nat (blen - (0 + (Z.of_nat p - 0) + 1)))) by lia.
    cbn [firstn]. by rewrite <- app_assoc. }
  rewrite Hout. split_and!; try done.
  rewrite length_take, length_app. cbn [length]. fold p q. lia.
Qed.
End Doubled.

(** ** Subnegotiation *)

Lemma sb_safe_lookup l k x y :
  sb_safe l = true → l !! k = Some x → l !! S k = Some y →
  ¬ (x = IAC ∧ (y = IAC ∨ y = SE)).
Proof.
  revert k. induction l as [|a [|b l] IH]; intros k Hs Hx Hy; [done| |].
  { destruct k; done. }
  cbn [sb_safe] in Hs. apply andb_true_iff in Hs as [Hab Hs].
  destruct k as [|k].
  - cbn in Hx, Hy. simplify_eq. apply negb_true_iff in Hab.
    intros [-> [->| ->]]; by rewrite ?bool_decide_true in Hab by done.
  - by eapply (IH k).
Qed.

Section Subnegotiation.
Context {T : Type} `{!Transport T}.
Implicit Type c : Connection T.

Lemma write_at_cursor blen (f : @Frame T) :
  write blen f (r (f_conn f)) = Ok f.
Proof. unfold write. by rewrite bool_decide_true by done. Qed.

(** X18: where a subnegotiation is delivered as framed. A
    begin-subnegotiation sequence [IAC SB o] for a registered option
    identifier [o] other than 0, followed by body bytes [P] and the
    terminator [IAC SE], where in [o], [P] and the marker of the
    terminator read in sequence no marker is directly followed by a marker
    or by [SE], all arriving in one transport read on a connection with
    nothing buffered: the subnegotiation callback of the handler is
    invoked once, with exactly [P], and acts on the transport as it was
    after the read; no application byte is produced, the connection itself
    writes nothing, and the parser is left outside any sequence with every
    byte consumed. *)
Theorem subnegotiation_framing c blen o P h t :
  ready c → 0 < blen → o ≠ Byte.x00 → OptionHandlers c !! o = Some h →
  sb_safe (o :: P ++ [IAC]) = true →
  arrives c blen ([IAC; SB; o] ++ P ++ [IAC; SE]) t None →
  ∃ res, read c blen = Ok res ∧
    silent_pass c blen ([IAC; SB; o] ++ P ++ [IAC; SE]) [HandleSB h P] res ∧
    rr_err res = None ∧ idle (rr_conn res) ∧
    r (rr_conn res) = w (rr_conn res) ∧
    Conn (rr_conn res) = handleSB h P t ∧
    same_refusals c (rr_conn res).
Proof.
  intros Hready Hblen Ho Hh Hsafe Harr.
  destruct (fill_ready c blen _ t None Hready Harr) as (junk & Hfill).
  unfold read. rewrite Hfill. proj. unfold scan_fuel. proj.
  set (tr := trace c ++ _). set (hs := OptionHandlers c) in *.
  set (cw := clientWont c). set (cd := clientDont c).
  set (L := o :: P ++ [IAC]) in *. set (p := length P).
  assert (HL : length L = S (S p)) by (subst L p; cbn; lens; cbn; lia).
  assert (Hlen : length ([IAC; SB; o] ++ P ++ [IAC; SE]) = (p + 5)%nat)
    by (cbn; lens; cbn; fold p; lia).
  rewrite Hlen.
  assert (Hbf : ([IAC; SB; o] ++ P ++ [IAC; SE]) ++ junk
                = [IAC; SB] ++ L ++ SE :: junk).
  { subst L. cbn. by rewrite <- !app_assoc. }
  rewrite Hbf. set (bf := [IAC; SB] ++ L ++ SE :: junk).
  assert (Hbflen : Z.of_nat (p + 5) ≤ Z.of_nat (length bf)).
  { subst bf. rewrite !length_app, HL. cbn. lia. }
  assert (HidxL : ∀ j x, 2 ≤ j → L !! Z.to_nat (j - 2) = Some x →
    index bf j = Ok x).
  { intros j x Hj Hx. subst bf. rewrite index_app_r by (cbn; lia).
    apply index_app_l; [cbn; lia|]. exact Hx. }
  assert (HidxSE : index bf (Z.of_nat p + 4) = Ok SE).
  { subst bf. rewrite index_app_r by (cbn; lia).
    rewrite index_app_r by (rewrite HL; cbn; lia).
    apply index_lookup; [rewrite HL; cbn; lia|].
    rewrite HL. cbn [length].
    by replace (Z.to_nat (Z.of_nat p + 4 - Z.of_nat 2 - Z.of_nat (S (S p))))
      with 0%nat by lia. }
  replace (Z.to_nat (2 * (Z.of_nat (p + 5) - 0) + 1))
    with (S (S (S (S p + S (p + 6)))))%nat by lia.
  (* the opening marker *)
  rewrite scan_S. rewrite bool_decide_true by (proj; lia).
  erewrite step_open; [|done|done|by apply index_lookup|apply write_at_cursor].
  proj. unsetters. proj.
  (* the command *)
  rewrite scan_S. rewrite bool_decide_true by (proj; lia).
  rewrite step_SB; [|done|done|done|by apply index_lookup|proj; lia].
  proj. unsetters. proj.
  (* the option byte *)
  rewrite scan_S. rewrite bool_decide_true by (proj; lia).
  erewrite (step_to_dispatch _ _ _ o SB);
    [|done|done|done|by apply HidxL|by apply index_lookup|by intros [_ ?]].
  rewrite dispatch_SB_option by done.
  proj. unsetters. proj.
  (* the body and the marker of the terminator *)
  rewrite scan_skip; proj; [| |lia|lia].
  2:{ intros j Hj.
      destruct (lookup_lt_is_Some_2 L (Z.to_nat (j - 2))) as [ch Hch]; [lia|].
      destruct (lookup_lt_is_Some_2 L (Z.to_nat (j - 3))) as [prev Hprev];
        [lia|].
      apply (step_body _ _ _ ch prev); proj; try done.
      - by apply HidxL; [lia|].
      - apply HidxL; [lia|]. by replace (j - 1 - 2) with (j - 3) by lia.
      - apply (sb_safe_lookup L (Z.to_nat (j - 3))); [done|done|].
        by replace (S (Z.to_nat (j - 3))) with (Z.to_nat (j - 2)) by lia. }
  (* the end of the terminator *)
  replace (0 + 1 + 1 + 1 + Z.of_nat (S p)) with (Z.of_nat p + 4) by lia.
  rewrite scan_S. rewrite bool_decide_true by (proj; lia).
  assert (Hbody : slice bf (0 + 1 + 2) (Z.of_nat p + 4 - 1) = Ok P).
  { rewrite slice_in_range by lia. f_equal.
    replace (Z.to_nat (Z.of_nat p + 4 - 1 - (0 + 1 + 2))) with p by lia.
    change (Z.to_nat (0 + 1 + 2)) with 3%nat. subst bf L p. cbn [app skipn].
    by rewrite drop_0, <- app_assoc, take_app_length. }
  erewrite step_SE; [|done|done|done|done|exact HidxSE| |exact Hbody].
  2:{ proj. apply HidxL; [lia|]. subst L.
      replace (Z.to_nat (Z.of_nat p + 4 - 1 - 2)) with (S p) by lia.
      change (o :: P ++ [IAC]) with ((o :: P) ++ [IAC]).
      rewrite lookup_app_r by (cbn [length]; lia). cbn [length].
      by rewrite Nat.sub_diag. }
  proj. rewrite Hh. unsetters. proj.
  rewrite (scan_to_end 0); proj; [|intros j Hj; lia|lia|lia].
  (* the trailing flush *)
  rewrite bool_decide_true by lia. rewrite slice_in_range by lia. proj.
  replace (Z.to_nat (Z.of_nat (p + 5) - (Z.of_nat p + 4 + 1))) with 0%nat
    by lia.
  rewrite take_0, take_nil. cbn [length]. rewrite Nat.min_0_r.
  eexists. split; [reflexivity|]. unfold silent_pass, idle, same_refusals.
  proj. split_and!; try done; [|lia].
  subst tr. by rewrite <- app_assoc.
Qed.
End Subnegotiation.

(** ** The escaping writer *)

Lemma reported_app {T} (tr1 tr2 : list (Event T)) :
  reported (tr1 ++ tr2) = reported tr1 + reported tr2.
Proof.
  unfold reported. induction tr1 as [|ev tr1 IH]; cbn [foldr app]; [lia|].
  destruct ev; lia.
Qed.

Lemma reported_write {T} p nn err :
  reported [@ConnWrite T p nn err] = Z.of_nat nn.
Proof. unfold reported. cbn. lia. Qed.

Section Writer.
Context {T : Type} `{!Transport T}.
Implicit Type c : Connection T.

Lemma Conn_Write_event c p :
  ∃ c' nn err, Conn_Write c p = (c', Z.of_nat nn, err) ∧
    trace c' = trace c ++ [ConnWrite p nn err].
Proof.
  unfold Conn_Write. destruct (conn_Write _ _) as [[t nn] err].
  by eexists _, nn, err.
Qed.

Lemma write_outcome_one c p c' nn err n :
  trace c' = trace c ++ [ConnWrite p nn err] →
  write_outcome c n (c', n + Z.of_nat nn, err).
Proof.
  intros Htr. destruct err as [e|].
  - exists [], [ConnWrite p nn (Some e)]. split_and!; [done|done| |].
    + right. by eexists _, _, _.
    + cbn [app]. by rewrite reported_write.
  - exists [ConnWrite p nn None], []. rewrite app_nil_r.
    split_and!; [done| |by left|by rewrite reported_write].
    by apply Forall_singleton.
Qed.

Lemma write_outcome_after c c1 n nn p out :
  trace c1 = trace c ++ [ConnWrite p nn None] →
  write_outcome c1 (n + Z.of_nat nn) out → write_outcome c n out.
Proof.
  destruct out as [[c' n'] err]. intros Htr (oks & last & Htr' & Hoks & Hl & Hn).
  exists (ConnWrite p nn None :: oks), last. split_and!; [| |done|].
  - rewrite Htr', Htr, <- !app_assoc. reflexivity.
  - by apply Forall_cons.
  - rewrite Hn. change (ConnWrite p nn None :: oks) with
      ([ConnWrite p nn None] ++ oks).
    rewrite <- !app_assoc, (reported_app [_]), reported_write. lia.
Qed.

Lemma Write_range_outcome b rest i c n lastWrite :
  0 ≤ lastWrite ≤ i →
  i + Z.of_nat (length rest) = Z.of_nat (length b) →
  ∃ out, Write_range b rest i c n lastWrite = Ok out ∧ write_outcome c n out.
Proof.
  revert i c n lastWrite.
  induction rest as [|ch rest IH]; intros i c n lw Hlw Hi; cbn [Write_range].
  - cbn [length] in Hi. case_bool_decide.
    + rewrite slice_in_range by lia. proj.
      destruct (Conn_Write_event c
        (take (Z.to_nat (Z.of_nat (length b) - lw)) (drop (Z.to_nat lw) b)))
        as (c' & nn & err & -> & Htr).
      eexists. split; [reflexivity|]. by eapply write_outcome_one.
    + eexists. split; [reflexivity|]. exists [], []. rewrite !app_nil_r.
      split_and!; [done|done|by left|]. unfold reported. cbn. lia.
  - cbn [length] in Hi. case_bool_decide; [|apply IH; lia].
    assert (∀ c1 n1,
      (∃ nn1 p, trace c1 = trace c ++ [ConnWrite p nn1 None]
                ∧ n1 = n + Z.of_nat nn1) ∨ (c1 = c ∧ n1 = n) →
      ∃ out,
        (let '(c2, nn, err) := Conn_Write c1 [IAC; IAC] in
         let n2 := n1 + nn in
         match err with
         | Some e => Ok (c2, n2, Some e)
         | None => Write_range b rest (i + 1) c2 n2 (i + 1)
         end) = Ok out ∧ write_outcome c n out) as Hpair.
    { intros c1 n1 Hc1.
      destruct (Conn_Write_event c1 [IAC; IAC]) as (c2 & nn & err & -> & Htr).
      assert (∃ out, match err with
        | Some e => Ok (c2, n1 + Z.of_nat nn, Some e)
        | None => Write_range b rest (i + 1) c2 (n1 + Z.of_nat nn) (i + 1)
        end = Ok out ∧ write_outcome c1 n1 out) as (out & Hout & Hwo).
      { destruct err as [e|].
        - eexists. split; [reflexivity|]. by eapply write_outcome_one.
        - destruct (IH (i + 1) c2 (n1 + Z.of_nat nn) (i + 1)) as (out & -> & Ho);
            [lia|lia|].
          eexists. split; [reflexivity|]. by eapply write_outcome_after. }
      exists out. split; [done|].
      destruct Hc1 as [(nn1 & p & Htr1 & ->)|[-> ->]]; [|done].
      by eapply write_outcome_after. }
    case_bool_decide.
    + rewrite slice_in_range by lia. proj.
      destruct (Conn_Write_event c
        (take (Z.to_nat (i - lw)) (drop (Z.to_nat lw) b)))
        as (c1 & nn1 & err1 & -> & Htr1).
      proj. destruct err1 as [e|].
      * eexists. split; [reflexivity|]. by eapply write_outcome_one.
      * apply Hpair. left. by eexists _, _.
    + proj. apply Hpair. by right.
Qed.

End Writer.

Lemma Pipe_Write_sent (c : Connection Pipe) p :
  ∃ c' nn err, Conn_Write c p = (c', Z.of_nat nn, err) ∧
    tx (Conn c') = tx (Conn c) ++ take nn p ∧ (nn ≤ length p)%nat.
Proof.
  unfold Conn_Write. cbn [conn_Write Pipe_Transport]. unfold Pipe_Write.
  destruct (tx_room (Conn c)) as [m|].
  - case_bool_decide.
    + eexists _, _, _. split; [reflexivity|]. cbn. by rewrite firstn_all.
    + eexists _, _, _. split; [reflexivity|]. cbn. split; [done|lia].
  - eexists _, _, _. split; [reflexivity|]. cbn. by rewrite firstn_all.
Qed.

(** On the scripted transport: the count returned is the number of bytes
    put on the wire. *)
Lemma Write_range_wire b rest i (c : Connection Pipe) n lastWrite :
  0 ≤ lastWrite ≤ i →
  i + Z.of_nat (length rest) = Z.of_nat (length b) →
  ∃ c' n' err sent,
    Write_range b rest i c n lastWrite = Ok (c', n', err) ∧
    tx (Conn c') = tx (Conn c) ++ sent ∧ n' = n + Z.of_nat (length sent).
Proof.
  revert i c n lastWrite.
  induction rest as [|ch rest IH]; intros i c n lw Hlw Hi; cbn [Write_range].
  - cbn [length] in Hi. case_bool_decide.
    + rewrite slice_in_range by lia. proj.
      destruct (Pipe_Write_sent c
        (take (Z.to_nat (Z.of_nat (length b) - lw)) (drop (Z.to_nat lw) b)))
        as (c' & nn & err & -> & Htx & Hnn).
      eexists _, _, _, _. split; [reflexivity|]. split; [exact Htx|].
      rewrite length_take. lia.
    + exists c, n, None, []. rewrite app_nil_r. cbn. split_and!; [done|done|lia].
  - cbn [length] in Hi. case_bool_decide; [|apply IH; lia].
    assert (∀ c1 n1 sent1,
      tx (Conn c1) = tx (Conn c) ++ sent1 → n1 = n + Z.of_nat (length sent1) →
      ∃ c' n' err sent,
        (let '(c2, nn, err) := Conn_Write c1 [IAC; IAC] in
         let n2 := n1 + nn in
         match err with
         | Some e => Ok (c2, n2, Some e)
         | None => Write_range b rest (i + 1) c2 n2 (i + 1)
         end) = Ok (c', n', err) ∧
        tx (Conn c') = tx (Conn c) ++ sent ∧
        n' = n + Z.of_nat (length sent)) as Hpair.
    { intros c1 n1 sent1 Htx1 ->.
      destruct (Pipe_Write_sent c1 [IAC; IAC]) as (c2 & nn & err & -> & Htx & Hnn).
      cbn zeta. destruct err as [e|].
      - eexists _, _, _, _. split; [reflexivity|]. rewrite Htx, Htx1.
        rewrite <- app_assoc. split; [reflexivity|].
        rewrite length_app, length_take. lia.
      - destruct (IH (i + 1) c2
          (n + Z.of_nat (length sent1) + Z.of_nat nn) (i + 1))
          as (c' & n' & err & sent & -> & Htx' & ->); [lia|lia|].
        eexists _, _, _, _. split; [reflexivity|]. rewrite Htx', Htx, Htx1.
        rewrite <- !app_assoc. split; [reflexivity|].
        rewrite !length_app, length_take. lia. }
    case_bool_decide.
    + rewrite slice_in_range by lia. proj.
      destruct (Pipe_Write_sent c
        (take (Z.to_nat (i - lw)) (drop (Z.to_nat lw) b)))
        as (c1 & nn1 & err1 & -> & Htx1 & Hnn1).
      proj. destruct err1 as [e|].
      * eexists _, _, _, _. split; [reflexivity|]. split; [exact Htx1|].
        rewrite length_take. lia.
      * apply (Hpair _ _ _ Htx1). rewrite length_take. lia.
    + proj. apply (Hpair c n []); [by rewrite app_nil_r|cbn; lia].
Qed.

(** X19: [Write] never panics and returns the sum of the counts the
    transport reported for the writes it issued, which on the scripted
    transport is the number of bytes put on the wire. All writes but the
    last one issued succeeded; when a transport write fails it is the last
    one issued and its error is returned with the sum of the counts
    reported so far, its own partial count included. *)
Theorem Write_returns_transport_count :
  (∀ T (HT : Transport T) (c : Connection T) (b : list byte),
     ∃ out, Write c b = Ok out ∧ write_outcome c 0 out) ∧
  (∀ (c : Connection Pipe) (b : list byte),
     ∃ c' n err sent, Write c b = Ok (c', n, err) ∧
       tx (Conn c') = tx (Conn c) ++ sent ∧ n = Z.of_nat (length sent)).
Proof.
  split.
  - intros T HT c b. apply Write_range_outcome; lia.
  - intros c b. destruct (Write_range_wire b b 0 c 0 0) as
      (c' & n' & err & sent & Hw & Htx & ->); [lia|lia|].
    by eexists _, _, _, _.
Qed.

(** * The cursor invariant and the negotiation dispatch *)

Section Dispatch.
Context {T : Type} `{!Transport T}.
Implicit Type c : Connection T.

(** C8: the buffer-cursor invariant [0 ≤ r ≤ w ≤ len(buf)] holds after
    construction, is preserved by every buffer fill (compaction and
    growth included), by every decode pass and by every call of [Read],
    and so holds after every sequence of read operations on a new
    connection. A run that panics leaves nothing to observe; no run
    exhausts the loop budget of the model. *)
Theorem buffer_cursor_invariant :
  (∀ (t : T) options, buf_inv (NewConnection t options)) ∧
  (∀ c requestedBytes,
     buf_inv c → after (λ out, buf_inv out.1) (fill c requestedBytes)) ∧
  (∀ c blen, buf_inv c → after (λ res, buf_inv (rr_conn res)) (read c blen)) ∧
  (∀ c blen, buf_inv c → after (λ res, buf_inv (rr_conn res)) (Read c blen)) ∧
  (∀ (t : T) options blens,
     after buf_inv (Read_seq (NewConnection t options) blens)).
Proof.
  split_and!.
  - apply NewConnection_buf_inv.
  - apply fill_sound.
  - apply read_sound.
  - apply Read_sound.
  - intros t options blens. apply Read_seq_sound, NewConnection_buf_inv.
Qed.

Lemma Read_frame c blen :
  after (λ res,
    clientWont c ⊆ clientWont (rr_conn res) ∧
    clientDont c ⊆ clientDont (rr_conn res) ∧
    (passes (trace (rr_conn res)) ≤ passes (trace c) + maxReadAttempts)%nat)
    (Read c blen).
Proof. apply (Read_loop_frame maxReadAttempts blen (mkReadResult c 0 None [])). Qed.

(** X20: the negotiation dispatch, where it works. For every option byte
    [o], when the three bytes of a negotiation arrive in one transport
    read on a connection with nothing buffered and the parser outside any
    sequence: [IAC WILL o] without a handler for [o] hands exactly
    [IAC DONT o] to the transport, [IAC DO o] without a handler exactly
    [IAC WONT o]; with a handler [h] registered, [HandleWill h],
    respectively [HandleDo h], is invoked on the transport as it was after
    the read, and the connection itself writes nothing; [IAC WONT o] adds
    [o] to [clientWont] and [IAC DONT o] adds [o] to [clientDont], with no
    write and no callback. In every case the pass delivers no application
    byte. The two refusal sets only grow, through every decode pass and
    every [Read]. *)
Theorem negotiation_dispatch :
  (∀ c blen o t, ready c → 0 < blen →
     (OptionHandlers c !! o = None →
      arrives c blen [IAC; WILL; o] t None →
      ∀ t' nn e, conn_Write t [IAC; DONT; o] = (t', nn, e) →
      ∃ res, read c blen = Ok res ∧
        silent_pass c blen [IAC; WILL; o] [ConnWrite [IAC; DONT; o] nn e] res ∧
        rr_err res = e ∧ Conn (rr_conn res) = t' ∧
        same_refusals c (rr_conn res)) ∧
     (OptionHandlers c !! o = None →
      arrives c blen [IAC; DO; o] t None →
      ∀ t' nn e, conn_Write t [IAC; WONT; o] = (t', nn, e) →
      ∃ res, read c blen = Ok res ∧
        silent_pass c blen [IAC; DO; o] [ConnWrite [IAC; WONT; o] nn e] res ∧
        rr_err res = e ∧ Conn (rr_conn res) = t' ∧
        same_refusals c (rr_conn res)) ∧
     (∀ h, OptionHandlers c !! o = Some h →
      arrives c blen [IAC; WILL; o] t None →
      ∃ res, read c blen = Ok res ∧
        silent_pass c blen [IAC; WILL; o] [HandleWill h] res ∧
        rr_err res = None ∧ Conn (rr_conn res) = handleWill h t ∧
        same_refusals c (rr_conn res)) ∧
     (∀ h, OptionHandlers c !! o = Some h →
      arrives c blen [IAC; DO; o] t None →
      ∃ res, read c blen = Ok res ∧
        silent_pass c blen [IAC; DO; o] [HandleDo h] res ∧
        rr_err res = None ∧ Conn (rr_conn res) = handleDo h t ∧
        same_refusals c (rr_conn res)) ∧
     (arrives c blen [IAC; WONT; o] t None →
      ∃ res, read c blen = Ok res ∧
        silent_pass c blen [IAC; WONT; o] [] res ∧
        rr_err res = None ∧ Conn (rr_conn res) = t ∧
        clientWont (rr_conn res) = {[o]} ∪ clientWont c ∧
        clientDont (rr_conn res) = clientDont c) ∧
     (arrives c blen [IAC; DONT; o] t None →
      ∃ res, read c blen = Ok res ∧
        silent_pass c blen [IAC; DONT; o] [] res ∧
        rr_err res = None ∧ Conn (rr_conn res) = t ∧
        clientWont (rr_conn res) = clientWont c ∧
        clientDont (rr_conn res) = {[o]} ∪ clientDont c)) ∧
  (∀ c blen,
     after (λ res, clientWont c ⊆ clientWont (rr_conn res) ∧
                   clientDont c ⊆ clientDont (rr_conn res)) (read c blen)) ∧
  (∀ c blen,
     after (λ res, clientWont c ⊆ clientWont (rr_conn res) ∧
                   clientDont c ⊆ clientDont (rr_conn res)) (Read c blen)).
Proof.
  split_and!.
  - intros c blen o t Hready Hblen. split_and!.
    + intros. by eapply read_WILL_unhandled.
    + intros. by eapply read_DO_unhandled.
    + intros. by eapply read_WILL_handled.
    + intros. by eapply read_DO_handled.
    + intros. by eapply read_WONT.
    + intros. by eapply read_DONT.
  - intros c blen. pose proof (read_frame c blen) as H.
    destruct (read c blen); cbn in *; [|done|done]. by destruct H as (? & ? & _).
  - intros c blen. pose proof (Read_frame c blen) as H.
    destruct (Read c blen); cbn in *; [|done|done]. by destruct H as (? & ? & _).
Qed.

End Dispatch.

Lemma buffer_cursor_invariant_witness :
  buf_inv (fresh [[Byte.x41]] []) ∧
  after (λ res, buf_inv (rr_conn res)) (Read (fresh [[Byte.x41]] []) 16).
Proof.
  assert (buf_inv (fresh [[Byte.x41]] [])) as H
    by (unfold buf_inv; cbn; lia).
  split; [exact H|].
  exact (proj1 (proj2 (proj2 (proj2 buffer_cursor_invariant))) _ 16 H).
Defined.

Lemma negotiation_dispatch_witness :
  ready (fresh [[IAC; WILL; Byte.x01]] []) ∧ 0 < 16 ∧
  ∃ res, read (fresh [[IAC; WILL; Byte.x01]] []) 16 = Ok res ∧
    silent_pass (fresh [[IAC; WILL; Byte.x01]] []) 16 [IAC; WILL; Byte.x01]
      [ConnWrite [IAC; DONT; Byte.x01] 3 None] res.
Proof.
  assert (ready (fresh [[IAC; WILL; Byte.x01]] [])) as Hready
    by (unfold ready, buf_inv, idle; cbn; split_and!; try done; lia).
  assert (0 < 16) as Hblen by lia.
  assert (OptionHandlers (fresh [[IAC; WILL; Byte.x01]] []) !! Byte.x01 = None)
    as Hnone by reflexivity.
  assert (arrives (fresh [[IAC; WILL; Byte.x01]] []) 16 [IAC; WILL; Byte.x01]
            (pipe_of []) None) as Harr by reflexivity.
  assert (conn_Write (pipe_of []) [IAC; DONT; Byte.x01]
          = (mkPipe [] [IAC; DONT; Byte.x01] None, 3%nat, None)) as Hwr
    by reflexivity.
  split; [exact Hready|]. split; [exact Hblen|].
  destruct (proj1 (proj1 negotiation_dispatch _ 16 Byte.x01 (pipe_of [])
                     Hready Hblen) Hnone Harr _ _ _ Hwr)
    as (res & Hres & Hsilent & _).
  exists res. split; [exact Hres|exact Hsilent].
Defined.

Lemma doubled_marker_literal_witness :
  ready (fresh [[Byte.x41; IAC; IAC; Byte.x42]] []) ∧
  ∃ res, read (fresh [[Byte.x41; IAC; IAC; Byte.x42]] []) 16 = Ok res ∧
    rr_err res = None ∧ rr_b res = [Byte.x41; IAC; Byte.x42].
Proof.
  assert (ready (fresh [[Byte.x41; IAC; IAC; Byte.x42]] [])) as Hready
    by (unfold ready, buf_inv, idle; cbn; split_and!; try done; lia).
  split; [exact Hready|].
  destruct (doubled_marker_literal (fresh [[Byte.x41; IAC; IAC; Byte.x42]] [])
              16 [Byte.x41] [Byte.x42] (pipe_of []) Hready)
    as (res & Hres & Herr & Hb & _).
  - intros Hin. apply list_elem_of_singleton in Hin. discriminate Hin.
  - intros Hin. apply list_elem_of_singleton in Hin. discriminate Hin.
  - cbn. lia.
  - reflexivity.
  - exists res. split; [exact Hres|]. split; [exact Herr|exact Hb].
Defined.

Lemma subnegotiation_framing_witness :
  ready (fresh [[IAC; SB; Byte.x18; Byte.x61; Byte.x62; IAC; SE]] [h24]) ∧
  ∃ res,
    read (fresh [[IAC; SB; Byte.x18; Byte.x61; Byte.x62; IAC; SE]] [h24]) 16
    = Ok res ∧
    silent_pass (fresh [[IAC; SB; Byte.x18; Byte.x61; Byte.x62; IAC; SE]] [h24])
      16 [IAC; SB; Byte.x18; Byte.x61; Byte.x62; IAC; SE]
      [HandleSB h24 [Byte.x61; Byte.x62]] res.
Proof.
  assert (ready (fresh [[IAC; SB; Byte.x18; Byte.x61; Byte.x62; IAC; SE]] [h24]))
    as Hready
    by (unfold ready, buf_inv, idle; cbn; split_and!; try done; lia).
  split; [exact Hready|].
  destruct (subnegotiation_framing
              (fresh [[IAC; SB; Byte.x18; Byte.x61; Byte.x62; IAC; SE]] [h24])
              16 Byte.x18 [Byte.x61; Byte.x62] h24 (pipe_of []) Hready)
    as (res & Hres & Hsilent & _).
  - lia.
  - discriminate.
  - reflexivity.
  - reflexivity.
  - reflexivity.
  - exists res. split; [exact Hres|exact Hsilent].
Defined.

(** * The code on concrete inputs *)

(** C1 (fails on the code): writing [D] and decoding the wire bytes does
    not give back [D] when one byte stands alone before a marker. For
    [D = [0x41; 0xFF]] the flush guard [lastWrite < i-1] is false at the
    marker, the byte 0x41 is never handed to the transport, and the wire
    holds the escaped marker only. *)
Theorem Write_drops_byte_before_marker :
  written [Byte.x41; IAC] = Ok ([IAC; IAC], 2, None) ∧
  round_trip [Byte.x41; IAC] 16 = Ok [IAC].
Proof. split; vm_compute; reflexivity. Qed.

(** C2 (fails on the code): the three bytes [IAC WILL 1], with or without
    a handler for option 1, give the same callbacks and the same reply
    whether they arrive in one transport read or in three, but delivered
    one byte per read the bytes [IAC] and [WILL] reach the caller as
    application data: the trailing flush of [read] copies the bytes of a
    sequence that is still open. *)
Theorem split_delivery_leaks_control_bytes :
  decode 4 (fresh [[IAC; WILL; Byte.x01]] []) 16
  = Ok ([], [], [IAC; DONT; Byte.x01]) ∧
  decode 4 (fresh [[IAC]; [WILL]; [Byte.x01]] []) 16
  = Ok ([IAC; WILL], [], [IAC; DONT; Byte.x01]) ∧
  decode 4 (fresh [[IAC; WILL; Byte.x18]] [h24]) 16
  = Ok ([], [Offer h24; HandleWill h24], []) ∧
  decode 4 (fresh [[IAC]; [WILL]; [Byte.x18]] [h24]) 16
  = Ok ([IAC; WILL], [Offer h24; HandleWill h24], []).
Proof. split_and!; vm_compute; reflexivity. Qed.

(** C3 (fails on the code): a subnegotiation does not reach the handler
    of its option when the option identifier is 0, and its body is not
    withheld until the terminator arrives. The value 0 of the field
    [option] doubles as "no option byte seen yet": after [IAC SB 0] the
    first body byte is taken for the option, the handler registered for 0
    is never invoked, and when a handler is registered under that body
    byte it is handed the body in its place. And when the terminator has
    not arrived yet, the trailing flush of [read] hands the bytes of the
    body buffered so far to the caller as application data. *)
Theorem subnegotiation_misdelivered :
  decode 1
    (fresh [[IAC; SB; Byte.x00; Byte.x61; Byte.x62; IAC; SE]] [h0]) 16
  = Ok ([], [Offer h0], []) ∧
  decode 1
    (fresh [[IAC; SB; Byte.x00; Byte.x18; Byte.x62; IAC; SE]] [h0; h24]) 16
  = Ok ([], [Offer h0; Offer h24; HandleSB h24 [Byte.x18; Byte.x62]], []) ∧
  decode 1 (fresh [[IAC; SB; Byte.x18; Byte.x61; Byte.x62]] [h24]) 16
  = Ok ([Byte.x61; Byte.x62], [Offer h24], []).
Proof. split_and!; vm_compute; reflexivity. Qed.

(** C4 (fails on the code): a negotiation is lost when the caller's buffer
    fills at its marker. With one data byte before [IAC WILL 1] and a
    caller buffer of one byte, the first pass stops at the marker with
    [c.iac] set and the marker still unread; the next pass takes that
    marker for the second half of a doubled marker and drops it, and the
    command and the option reach the caller as application data: no
    refusal is written, the handler registered for the option is not
    invoked, and a [WONT] is not recorded, where the same sequence met
    with room in the caller's buffer is. *)
Theorem negotiation_lost_when_caller_buffer_fills :
  decode 4
    (fresh [[Byte.x41; IAC; WILL; Byte.x01]; [Byte.x42]; [Byte.x43];
            [Byte.x44]] []) 1
  = Ok ([Byte.x41; WILL; Byte.x01; Byte.x42], [], []) ∧
  decode 4
    (fresh [[Byte.x41; IAC; DO; Byte.x01]; [Byte.x42]; [Byte.x43];
            [Byte.x44]] []) 1
  = Ok ([Byte.x41; DO; Byte.x01; Byte.x42], [], []) ∧
  decode 4
    (fresh [[Byte.x41; IAC; WILL; Byte.x18]; [Byte.x42]; [Byte.x43];
            [Byte.x44]] [h24]) 1
  = Ok ([Byte.x41; WILL; Byte.x18; Byte.x42], [Offer h24], []) ∧
  refused 4
    (fresh [[Byte.x41; IAC; WONT; Byte.x01]; [Byte.x42]; [Byte.x43];
            [Byte.x44]] []) 1
  = Ok ([], []) ∧
  refused 1 (fresh [[Byte.x41; IAC; WONT; Byte.x01]] []) 16
  = Ok ([Byte.x01], []).
Proof. split_and!; vm_compute; reflexivity. Qed.

(** C5 (fails on the code): the count [Write] returns is not a count of
    input bytes. For the one-byte input [[0xFF]] it returns 2, more than
    [len(b)]; and when the transport fails on the second byte of an
    escaped marker, after the two input bytes before the marker have been
    forwarded, it returns 3, the bytes the transport took, the half-sent
    marker included. *)
Theorem Write_count_exceeds_input_length :
  written [IAC] = Ok ([IAC; IAC], 2, None) ∧
  2 ≠ Z.of_nat (length [IAC]) ∧
  written_with_room 3 [Byte.x41; Byte.x42; IAC; Byte.x43]
  = Ok ([Byte.x41; Byte.x42; IAC], 3, Some (net_error 32)).
Proof. split_and!; [vm_compute; reflexivity|done|vm_compute; reflexivity]. Qed.

(** C6 (fails on the code): a sequence that resumes at buffer index 0 makes
    both look-behind reads index the buffer at -1. After [IAC WILL] has
    arrived, a marker arriving alone is tested against [c.buf[i-1]] with
    [i = 0]; after [IAC SB 24 a], an [SE] arriving alone is tested the same
    way. Both passes panic. *)
Theorem look_behind_at_index_zero_panics :
  decode 2 (fresh [[IAC; WILL]; [IAC]] []) 16 = Panic ∧
  decode 2 (fresh [[IAC; SB; Byte.x18; Byte.x61]; [SE]] [h24]) 16 = Panic.
Proof. split; vm_compute; reflexivity. Qed.

(** C7 (fails on the code): an escaped marker inside a subnegotiation is
    not removed. [copy(c.buf[:i], c.buf[i+1:])] overwrites the front of the
    buffer with the bytes that follow the marker: for the body
    [a IAC IAC b] the handler receives [0 0 IAC b], neither the body as
    sent nor the body with the pair collapsed, [a IAC b]. *)
Theorem escaped_marker_overwrites_buffer :
  decode 1
    (fresh [[IAC; SB; Byte.x18; Byte.x61; IAC; IAC; Byte.x62; IAC; SE]] [h24])
    16
  = Ok ([], [Offer h24; HandleSB h24 [Byte.x00; Byte.x00; IAC; Byte.x62]], []).
Proof. vm_compute. reflexivity. Qed.

(** C9 (fails on the code): an error does not stop the retry loop of
    [Read], whose condition tests [n] and [len(b)] only. On a closed
    connection every one of the ten passes runs and fails; when the first
    transport read fails and the second delivers a byte, [Read] returns
    that byte with a nil error and the failure is lost. *)
Theorem Read_retries_after_error :
  Read_passes (fresh [] []) 16 = Ok (0, Some io_EOF, 10%nat) ∧
  Read_passes (NewConnection flaky_pipe []) 16 = Ok (1, None, 2%nat).
Proof. split; vm_compute; reflexivity. Qed.

(** C10 (fails on the code): a doubled marker is lost when the caller's
    buffer fills at its first marker. With one data byte before the pair
    and a caller buffer of one byte, the first pass stops at the first
    marker with [c.iac] set and the marker still unread; the next pass
    takes it for the second half of a pair and drops it without a
    literal, and the second marker opens a control sequence that swallows
    the two bytes after the pair: as a command and an option that are
    ignored, or, when they read [WILL 1], as a negotiation that is
    answered on the wire. *)
Theorem doubled_marker_lost_when_caller_buffer_fills :
  decode 4
    (fresh [[Byte.x41; IAC; IAC; Byte.x42]; [Byte.x43]; [Byte.x44];
            [Byte.x45]] []) 1
  = Ok ([Byte.x41; Byte.x44; Byte.x45], [], []) ∧
  decode 3
    (fresh [[Byte.x41; IAC; IAC; WILL; Byte.x01]; [Byte.x44]; [Byte.x45]] [])
    1
  = Ok ([Byte.x41; Byte.x44; Byte.x45], [], [IAC; DONT; Byte.x01]).
Proof. split; vm_compute; reflexivity. Qed.

(** The pair of markers split over two transport reads still yields one
    literal marker. *)
Example doubled_marker_split_over_reads :
  decode 3 (fresh [[IAC]; [IAC]] []) 16 = Ok ([IAC], [], []).
Proof. vm_compute. reflexivity. Qed.

(** * Further properties of the code *)

(** ** The writer *)

Section WriterMore.
Context {T : Type} `{!Transport T}.
Implicit Type c : Connection T.

Lemma Write_range_plain b rest i c n lastWrite :
  IAC ∉ rest →
  Write_range b rest i c n lastWrite =
  Write_range b [] (i + Z.of_nat (length rest)) c n lastWrite.
Proof.
  revert i. induction rest as [|ch rest IH]; intros i Hp.
  { reflexivity. }
  cbn [Write_range length].
  rewrite bool_decide_false by (intros ->; apply Hp; left).
  rewrite IH by (intros Hin; apply Hp; by right).
  reflexivity.
Qed.

(** X1: input without a marker is handed to the transport unchanged, in
    one write whose count and error [Write] returns; for the empty input
    the transport is not called at all. *)
Theorem Write_plain_is_one_transport_write c b :
  IAC ∉ b →
  Write c b =
  match b with
  | [] => Ok (c, 0, None)
  | _ => Ok (Conn_Write c b)
  end.
Proof.
  intros Hp. unfold Write. rewrite Write_range_plain by done.
  cbn [Write_range]. destruct b as [|ch b]; [reflexivity|].
  rewrite bool_decide_true by (cbn [length]; lia).
  rewrite slice_in_range by lia. cbn [mbind Exec_bind].
  rewrite Z.sub_0_r, Nat2Z.id. change (Z.to_nat 0) with 0%nat.
  rewrite drop_0, firstn_all.
  by destruct (Conn_Write c (ch :: b)) as [[c1 nn] err].
Qed.

Lemma Conn_Write_same_reader c p c' nn err :
  Conn_Write c p = (c', nn, err) → same_reader c c'.
Proof.
  unfold Conn_Write. destruct (conn_Write _ _) as [[t k] e].
  intros [= <- _ _]. by unfold same_reader.
Qed.

Lemma same_reader_trans c1 c2 c3 :
  same_reader c1 c2 → same_reader c2 c3 → same_reader c1 c3.
Proof.
  unfold same_reader. intros (-> & -> & -> & -> & -> & -> & -> & -> & ->).
  done.
Qed.

Lemma Write_range_same_reader b rest i c n lastWrite c' n' err :
  Write_range b rest i c n lastWrite = Ok (c', n', err) → same_reader c c'.
Proof.
  revert i c n lastWrite.
  induction rest as [|ch rest IH]; intros i c n lw; cbn [Write_range].
  - case_bool_decide; [|by intros [= <- _ _]].
    destruct (slice _ _ _) as [p| |]; [|done|done]. cbn [mbind Exec_bind].
    destruct (Conn_Write c p) as [[c1 nn] e] eqn:Ew.
    intros [= <- _ _]. by eapply Conn_Write_same_reader.
  - case_bool_decide; [|apply IH].
    assert (∀ c1 n1, same_reader c c1 →
      (let '(c2, nn, err0) := Conn_Write c1 [IAC; IAC] in
       let n2 := n1 + nn in
       match err0 with
       | Some e => Ok (c2, n2, Some e)
       | None => Write_range b rest (i + 1) c2 n2 (i + 1)
       end) = Ok (c', n', err) → same_reader c c') as Hpair.
    { intros c1 n1 H1.
      destruct (Conn_Write c1 [IAC; IAC]) as [[c2 nn] e] eqn:Ew.
      apply Conn_Write_same_reader in Ew. cbn zeta.
      destruct e as [e|].
      - intros [= <- _ _]. by do 2 (eapply same_reader_trans; [|done]).
      - intros Hr. apply IH in Hr.
        eapply same_reader_trans; [|exact Hr].
        by eapply same_reader_trans. }
    case_bool_decide.
    + destruct (slice _ _ _) as [p| |]; [|done|done]. cbn [mbind Exec_bind].
      destruct (Conn_Write c p) as [[c1 nn1] e1] eqn:Ew1.
      apply Conn_Write_same_reader in Ew1. cbn [mbind Exec_bind].
      destruct e1 as [e|]; [by intros [= <- _ _]|]. by apply Hpair.
    + cbn [mbind Exec_bind]. by apply Hpair.
Qed.

(** X2: [Write] always returns, and the connection it leaves has the
    buffer, the cursors, the parser state, the handlers and the refusal
    sets it was given: the writer touches the transport only. *)
Theorem Write_leaves_reader_state c b :
  ∃ c' n err, Write c b = Ok (c', n, err) ∧ same_reader c c'.
Proof.
  destruct (Write_range_outcome b b 0 c 0 0) as ([[c' n] err] & Hw & _);
    [lia|lia|].
  exists c', n, err. split; [exact Hw|].
  by eapply Write_range_same_reader.
Qed.

End WriterMore.

Lemma Pipe_Write_unlimited (c : Connection Pipe) p :
  tx_room (Conn c) = None →
  ∃ c', Conn_Write c p = (c', Z.of_nat (length p), None) ∧
    tx (Conn c') = tx (Conn c) ++ p ∧ tx_room (Conn c') = None.
Proof.
  intros Hroom. unfold Conn_Write. cbn [conn_Write Pipe_Transport].
  unfold Pipe_Write. rewrite Hroom. eexists. split; [reflexivity|]. done.
Qed.

Lemma well_spaced_from_app_plain k ch b :
  ch ≠ IAC → well_spaced_from k (ch :: b) = well_spaced_from (S k) b.
Proof. intros Hne. cbn. by rewrite bool_decide_false. Qed.

Lemma Write_range_escapes b rest i (c : Connection Pipe) n lastWrite :
  tx_room (Conn c) = None →
  0 ≤ lastWrite ≤ i → i ≤ Z.of_nat (length b) →
  rest = drop (Z.to_nat i) b →
  well_spaced_from (Z.to_nat (i - lastWrite)) rest = true →
  IAC ∉ take (Z.to_nat (i - lastWrite)) (drop (Z.to_nat lastWrite) b) →
  ∃ c',
    Write_range b rest i c n lastWrite =
    Ok (c', n + (i - lastWrite) + Z.of_nat (length (escape rest)), None) ∧
    tx (Conn c') =
    tx (Conn c) ++
    take (Z.to_nat (i - lastWrite)) (drop (Z.to_nat lastWrite) b) ++
    escape rest.
Proof.
  revert i c n lastWrite.
  induction rest as [|ch rest IH]; intros i c n lw Hroom Hlw Hile Hrest Hws Hp.
  - assert (Z.of_nat (length b) ≤ i) as Hi.
    { symmetry in Hrest. apply drop_nil_inv in Hrest. lia. }
    assert (Hpend : take (Z.to_nat (i - lw)) (drop (Z.to_nat lw) b)
                    = drop (Z.to_nat lw) b)
      by (apply take_ge; rewrite length_drop; lia).
    cbn [Write_range escape length]. rewrite Hpend, app_nil_r.
    case_bool_decide as Hlt.
    + rewrite slice_in_range by lia. cbn [mbind Exec_bind].
      rewrite (take_ge (drop _ _)) by (rewrite length_drop; lia).
      destruct (Pipe_Write_unlimited c (drop (Z.to_nat lw) b) Hroom)
        as (c' & -> & Htx & _).
      exists c'. rewrite length_drop. split; [|done].
      do 2 f_equal. f_equal.
      (* the pending bytes are all of b[lastWrite:] *)
      assert (Z.of_nat (length (take (Z.to_nat (i - lw))
                (drop (Z.to_nat lw) b))) = Z.of_nat (length b) - lw)
        by (rewrite Hpend, length_drop; lia).
      rewrite length_take, length_drop in H. lia.
    + exists c. rewrite drop_ge by lia. rewrite app_nil_r.
      split; [|done]. do 2 f_equal. f_equal.
      assert (length (take (Z.to_nat (i - lw)) (drop (Z.to_nat lw) b)) = 0%nat)
        as H0 by (rewrite Hpend, length_drop; lia).
      rewrite length_take, length_drop in H0. lia.
  - assert (Hbi : b !! Z.to_nat i = Some ch).
    { rewrite <- (Nat.add_0_r (Z.to_nat i)), <- lookup_drop, <- Hrest.
      reflexivity. }
    assert (Hilt : i < Z.of_nat (length b))
      by (apply lookup_lt_Some in Hbi; lia).
    assert (Hrest' : rest = drop (Z.to_nat (i + 1)) b).
    { replace (Z.to_nat (i + 1)) with (S (Z.to_nat i)) by lia.
      rewrite (drop_S _ _ _ Hbi) in Hrest. by injection Hrest. }
    cbn [Write_range escape].
    destruct (bool_decide (ch = IAC)) eqn:Ech.
    + apply bool_decide_eq_true in Ech. subst ch.
      cbn [well_spaced_from] in Hws. rewrite bool_decide_true in Hws by done.
      apply andb_true_iff in Hws as [Hone Hws].
      apply negb_true_iff, Nat.eqb_neq in Hone.
      assert (∃ c1,
        (if bool_decide (lw < i - 1)
         then slice b lw i ≫= (λ p,
                let '(c1, nn, err) := Conn_Write c p in Ok (c1, n + nn, err))
         else Ok (c, n, None)) = Ok (c1, n + (i - lw), None) ∧
        tx (Conn c1) = tx (Conn c) ++
          take (Z.to_nat (i - lw)) (drop (Z.to_nat lw) b) ∧
        tx_room (Conn c1) = None) as (c1 & -> & Htx1 & Hroom1).
      { case_bool_decide.
        - rewrite slice_in_range by lia. cbn [mbind Exec_bind].
          destruct (Pipe_Write_unlimited c
            (take (Z.to_nat (i - lw)) (drop (Z.to_nat lw) b)) Hroom)
            as (c1 & -> & Htx & Hr1).
          exists c1. split; [|done]. do 2 f_equal. f_equal.
          rewrite length_take, length_drop. lia.
        - assert (i - lw = 0) as -> by lia.
          exists c. rewrite Z.add_0_r. change (Z.to_nat 0) with 0%nat.
          by rewrite take_0, app_nil_r. }
      cbn [mbind Exec_bind].
      destruct (Pipe_Write_unlimited c1 [IAC; IAC] Hroom1)
        as (c2 & -> & Htx2 & Hroom2).
      cbn zeta.
      destruct (IH (i + 1) c2 (n + (i - lw) + Z.of_nat (length [IAC; IAC]))
                  (i + 1) Hroom2) as (c' & -> & Htx');
        [lia|lia|done|by rewrite Z.sub_diag|
         by rewrite Z.sub_diag; change (Z.to_nat 0) with 0%nat;
            rewrite take_0; apply not_elem_of_nil|].
      exists c'. split.
      * do 2 f_equal. f_equal. cbn [length]. lia.
      * rewrite Htx', Htx2, Htx1, Z.sub_diag. change (Z.to_nat 0) with 0%nat.
        rewrite take_0. cbn [app]. by rewrite <- !app_assoc.
    + apply bool_decide_eq_false in Ech.
      rewrite well_spaced_from_app_plain in Hws by done.
      assert (Hpend : take (Z.to_nat (i + 1 - lw)) (drop (Z.to_nat lw) b)
        = take (Z.to_nat (i - lw)) (drop (Z.to_nat lw) b) ++ [ch]).
      { replace (Z.to_nat (i + 1 - lw)) with (S (Z.to_nat (i - lw))) by lia.
        apply take_S_r. rewrite lookup_drop.
        by replace (Z.to_nat lw + Z.to_nat (i - lw))%nat with (Z.to_nat i)
          by lia. }
      destruct (IH (i + 1) c n lw Hroom) as (c' & -> & Htx');
        [lia|lia|done|
         by replace (Z.to_nat (i + 1 - lw)) with (S (Z.to_nat (i - lw))) by lia|
         |].
      { rewrite Hpend. intros Hin. apply elem_of_app in Hin as [Hin|Hin];
          [by apply Hp|]. apply list_elem_of_singleton in Hin. by subst ch. }
      exists c'. split.
      * do 2 f_equal. f_equal. cbn [length]. lia.
      * rewrite Htx', Hpend, <- !app_assoc. reflexivity.
Qed.

(** X3: on a transport that accepts every write, [Write] puts the escaped
    form of [b] on the wire, every marker doubled and every other byte
    once, provided no marker of [b] comes right after a run of exactly one
    byte; the count returned is the length of the escaped form. *)
Theorem Write_escapes_well_spaced (c : Connection Pipe) b :
  tx_room (Conn c) = None → well_spaced b = true →
  ∃ c', Write c b = Ok (c', Z.of_nat (length (escape b)), None) ∧
    tx (Conn c') = tx (Conn c) ++ escape b.
Proof.
  intros Hroom Hws.
  destruct (Write_range_escapes b b 0 c 0 0 Hroom) as (c' & Hw & Htx);
    [lia|lia|done|exact Hws|apply not_elem_of_nil|].
  exists c'. split; [|exact Htx].
  unfold Write. rewrite Hw. reflexivity.
Qed.

(** ** Decoding escaped data *)

Section DecodeEscaped.
Context {T : Type} `{!Transport T}.
Implicit Type c : Connection T.

(** The scan over the escaped form of [D], outside any sequence, with room
    for all of [D]: what has been copied to the caller together with what
    is left for the trailing flush is [D] after the bytes that were
    pending. *)
Lemma scan_escaped D fuel blen i (t : T) hs bf r0 w0 op cw cd tr b :
  0 ≤ r0 ≤ i → i + Z.of_nat (length (escape D)) = w0 →
  w0 ≤ Z.of_nat (length bf) →
  Z.of_nat (length b) + (i - r0) + Z.of_nat (length D) ≤ blen →
  (∀ k x, escape D !! k = Some x → index bf (i + Z.of_nat k) = Ok x) →
  (length (escape D) ≤ fuel)%nat →
  ∃ r1 b1,
    scan fuel blen i
      (mkFrame (mkConnection t hs bf r0 w0 false Byte.x00 op cw cd tr)
         (Z.of_nat (length b)) (Z.of_nat (length b)) false b) =
    Ok (Done
          (mkFrame (mkConnection t hs bf r1 w0 false Byte.x00 op cw cd tr)
             (Z.of_nat (length b1)) (Z.of_nat (length b1)) false b1)) ∧
    0 ≤ r1 ≤ w0 ∧
    b1 ++ take (Z.to_nat (w0 - r1)) (drop (Z.to_nat r1) bf) =
    b ++ take (Z.to_nat (i - r0)) (drop (Z.to_nat r0) bf) ++ D.
Proof.
  revert fuel i r0 b.
  induction D as [|x D IH]; intros fuel i r0 b Hr Hw Hbf Hroom Hidx Hfuel.
  - cbn [escape length] in Hw. exists r0, b. split_and!; [|lia|lia|].
    + destruct fuel; rewrite ?scan_O, ?scan_S;
        by rewrite bool_decide_false by (proj; lia).
    + rewrite app_nil_r. do 3 f_equal. lia.
  - cbn [escape] in Hw, Hidx, Hfuel. cbn [length] in Hroom.
    destruct (bool_decide (x = IAC)) eqn:Ex.
    + apply bool_decide_eq_true in Ex. subst x. cbn [length] in Hw, Hfuel.
      destruct fuel as [|[|fuel]]; [lia|lia|].
      assert (Hi1 : index bf i = Ok IAC).
      { replace i with (i + Z.of_nat 0) by lia. by apply Hidx. }
      assert (Hi2 : index bf (i + 1) = Ok IAC).
      { replace (i + 1) with (i + Z.of_nat 1) by lia. by apply Hidx. }
      rewrite scan_doubled_marker by (done || lia).
      set (b' := b ++ take (Z.to_nat (i - r0)) (drop (Z.to_nat r0) bf) ++ [IAC]).
      assert (Hb' : Z.of_nat (length b') = Z.of_nat (length b) + (i - r0) + 1).
      { subst b'. lens. cbn [length]. lia. }
      rewrite <- Hb'.
      destruct (IH fuel (i + 2) (i + 2) b') as (r1 & b1 & Hs & Hr1 & Hout);
        [lia|lia|lia|lia| |lia|].
      { intros k y Hk. replace (i + 2 + Z.of_nat k) with (i + Z.of_nat (S (S k)))
          by lia. by apply Hidx. }
      exists r1, b1. split; [exact Hs|]. split; [lia|].
      rewrite Hout. subst b'. rewrite Z.sub_diag.
      change (Z.to_nat 0) with 0%nat. rewrite take_0. cbn [app].
      by rewrite <- !app_assoc.
    + apply bool_decide_eq_false in Ex. cbn [length] in Hw, Hfuel.
      destruct fuel as [|fuel]; [lia|].
      assert (Hi : index bf i = Ok x).
      { replace i with (i + Z.of_nat 0) by lia. by apply Hidx. }
      rewrite scan_S. rewrite bool_decide_true by (proj; lia).
      rewrite (step_plain _ _ _ x) by done. proj.
      destruct (IH fuel (i + 1) r0 b) as (r1 & b1 & Hs & Hr1 & Hout);
        [lia|lia|lia|lia| |lia|].
      { intros k y Hk. replace (i + 1 + Z.of_nat k) with (i + Z.of_nat (S k))
          by lia. by apply Hidx. }
      exists r1, b1. split; [exact Hs|]. split; [lia|].
      rewrite Hout. f_equal.
      replace (Z.to_nat (i + 1 - r0)) with (S (Z.to_nat (i - r0))) by lia.
      apply index_Ok_inv in Hi as [_ Hi].
      rewrite (take_S_r _ _ x), <- app_assoc; [done|].
      rewrite lookup_drop.
      by replace (Z.to_nat r0 + Z.to_nat (i - r0))%nat with (Z.to_nat i) by lia.
Qed.

(** A pass over the escaped form of [D], arriving in one transport read
    with nothing buffered, delivers [D]. *)
Lemma read_escaped c blen D t :
  ready c → Z.of_nat (length D) ≤ blen →
  arrives c blen (escape D) t None →
  ∃ res, read c blen = Ok res ∧ rr_err res = None ∧
    rr_b res = D ∧ rr_n res = Z.of_nat (length D) ∧
    trace (rr_conn res) =
      trace c ++
      [ConnRead (Z.to_nat (Z.max (Z.of_nat (length (buf c))) blen))
         (escape D) None] ∧
    idle (rr_conn res) ∧ r (rr_conn res) = w (rr_conn res) ∧
    Conn (rr_conn res) = t ∧ same_refusals c (rr_conn res).
Proof.
  intros Hready Hroom Harr.
  destruct (fill_ready c blen _ t None Hready Harr) as (junk & Hfill).
  unfold read. rewrite Hfill. proj. unfold scan_fuel. proj.
  set (tr := trace c ++ _).
  destruct (scan_escaped D
    (Z.to_nat (2 * (Z.of_nat (length (escape D)) - 0) + 1)) blen 0 t
    (OptionHandlers c) (escape D ++ junk) 0 (Z.of_nat (length (escape D)))
    Byte.x00 (clientWont c) (clientDont c) tr [])
    as (r1 & b1 & Hs & Hr1 & Hout); [lia|lia| |cbn [length]; lia| |lia|].
  { rewrite length_app. lia. }
  { intros k x Hk. apply index_app_l; [lia|].
    by replace (Z.to_nat (0 + Z.of_nat k)) with k by lia. }
  cbn [length] in Hs. change (Z.of_nat 0) with 0 in Hs. rewrite Hs. proj.
  rewrite Z.sub_diag in Hout. change (Z.to_nat 0) with 0%nat in Hout.
  rewrite take_0 in Hout. cbn [app] in Hout.
  assert (Hlen : Z.of_nat (length b1) + (Z.of_nat (length (escape D)) - r1)
                 = Z.of_nat (length D)).
  { apply (f_equal length) in Hout. revert Hout. lens.
    rewrite length_app. lia. }
  rewrite bool_decide_true by lia.
  rewrite slice_in_range by (rewrite ?length_app; lia). proj.
  rewrite (take_ge (take _ _)) by (lens; lia). rewrite Hout.
  assert (Hsrc : length (take (Z.to_nat (Z.of_nat (length (escape D)) - r1))
                     (drop (Z.to_nat r1) (escape D ++ junk)))
                 = Z.to_nat (Z.of_nat (length (escape D)) - r1)).
  { rewrite length_take, length_drop, length_app. lia. }
  rewrite Hsrc.
  eexists. split; [reflexivity|]. unfold idle, same_refusals. unsetters. proj.
  split_and!; try done; lia.
Qed.

End DecodeEscaped.

Lemma Read_first_pass_with_bytes {T} `{!Transport T} (c : Connection T)
  blen res :
  0 < blen → read c blen = Ok res → rr_n res ≠ 0 → Read c blen = Ok res.
Proof.
  intros Hblen Hread Hn. unfold Read. change maxReadAttempts with 10%nat.
  cbn [Read_loop rr_n rr_conn]. rewrite bool_decide_true by lia.
  rewrite Hread. proj. by rewrite bool_decide_false by (intros [? _]; done).
Qed.

(** X4: the decoder inverts the escaping. When the escaped form of any
    byte sequence [D], markers included, arrives in one transport read on
    a connection with nothing buffered, and the caller's buffer has room
    for [D], the pass delivers exactly [D], invokes no handler, writes
    nothing and consumes every byte; when [D] is not empty, [Read] returns
    after this one pass with the same result. *)
Theorem read_decodes_escaped {T} `{!Transport T} (c : Connection T)
  blen D t :
  ready c → Z.of_nat (length D) ≤ blen →
  arrives c blen (escape D) t None →
  ∃ res, read c blen = Ok res ∧ (D ≠ [] → Read c blen = Ok res) ∧
    rr_err res = None ∧ rr_b res = D ∧ rr_n res = Z.of_nat (length D) ∧
    trace (rr_conn res) =
      trace c ++
      [ConnRead (Z.to_nat (Z.max (Z.of_nat (length (buf c))) blen))
         (escape D) None] ∧
    idle (rr_conn res) ∧ r (rr_conn res) = w (rr_conn res) ∧
    Conn (rr_conn res) = t ∧ same_refusals c (rr_conn res).
Proof.
  intros Hready Hroom Harr.
  destruct (read_escaped c blen D t Hready Hroom Harr)
    as (res & Hread & Herr & Hb & Hn & Htr & Hidle & Hrw & Ht & Hsets).
  exists res. split_and!; try done.
  intros Hne. apply Read_first_pass_with_bytes; [|exact Hread|].
  - destruct D; [done|]. cbn [length] in Hroom. lia.
  - destruct D; [done|]. cbn [length] in Hn. lia.
Qed.

(** X5: the round trip that holds. For every non-empty [D] in which no
    marker comes right after a run of exactly one byte, writing [D] and
    decoding the wire bytes, arriving in one transport read that fits the
    internal buffer, with a caller buffer that has room for [D], gives
    back [D]. *)
Theorem round_trip_well_spaced D blen :
  D ≠ [] → well_spaced D = true → Z.of_nat (length D) ≤ blen →
  Z.of_nat (length (escape D)) ≤ Z.max 256 blen →
  round_trip D blen = Ok D.
Proof.
  intros Hne Hws Hroom Hfit. unfold round_trip, written.
  destruct (Write_range_escapes D D 0 (fresh [] []) 0 0) as (c' & Hw & Htx);
    [reflexivity|lia|lia|done|exact Hws|apply not_elem_of_nil|].
  unfold Write. rewrite Hw. proj. rewrite Htx. change (tx (Conn (fresh [] []))) with (@nil byte).
  cbn [app]. unfold decode. cbn [Read_many].
  assert (Hready : ready (fresh [escape D] [])).
  { unfold ready, buf_inv, idle. cbn. split_and!; try done; lia. }
  assert (Harr : arrives (fresh [escape D] []) blen (escape D) (pipe_of []) None).
  { unfold arrives. cbn [fresh NewConnection foldl Conn buf].
    rewrite length_replicate. cbn [conn_Read Pipe_Transport].
    unfold Pipe_Read, pipe_of. cbn [rx fmap list_fmap].
    rewrite bool_decide_true by lia. reflexivity. }
  destruct (read_escaped (fresh [escape D] []) blen D (pipe_of [])
              Hready Hroom Harr)
    as (res & Hread & Herr & Hb & Hn & _).
  rewrite (Read_first_pass_with_bytes _ _ res);
    [|destruct D; [done|cbn [length] in Hroom; lia]|exact Hread|
     destruct D; [done|cbn [length] in Hn; lia]].
  proj. rewrite Herr. proj. unfold delivered. rewrite Hn, Hb, Nat2Z.id.
  by rewrite firstn_all, app_nil_r.
Qed.

(** ** The buffer fill, in general *)

Section FillMore.
Context {T : Type} `{!Transport T}.
Implicit Type c : Connection T.

(** What [fill] does under the cursor invariant, whatever the transport
    returns. *)
Lemma fill_unread c requestedBytes t data err :
  buf_inv c →
  conn_Read (Conn c)
    (Z.to_nat (Z.max (Z.of_nat (length (buf c))) requestedBytes
               - (w c - r c))) = (t, data, err) →
  ∃ c', fill c requestedBytes = Ok (c', err) ∧
    r c' = 0 ∧ w c' = w c - r c + Z.of_nat (length data) ∧
    unread c' = unread c ++ data ∧
    Z.of_nat (length (buf c')) = Z.max (Z.of_nat (length (buf c))) requestedBytes ∧
    Conn c' = t ∧ iac c' = iac c ∧ cmd c' = cmd c ∧ option_ c' = option_ c ∧
    same_refusals c c' ∧
    trace c' =
      trace c ++
      [ConnRead (Z.to_nat (Z.max (Z.of_nat (length (buf c))) requestedBytes
                           - (w c - r c))) data err].
Proof.
  intros (Hr & Hrw & Hw) Hread.
  pose proof (conn_Read_len (Conn c)
    (Z.to_nat (Z.max (Z.of_nat (length (buf c))) requestedBytes
               - (w c - r c)))) as Hlen.
  rewrite Hread in Hlen. cbn in Hlen.
  destruct c as [t0 hs bf r0 w0 ia cm op cw cd tr]. unfold unread.
  cbn [Conn buf r w iac cmd option_ trace] in *.
  set (u := take (Z.to_nat (w0 - r0)) (drop (Z.to_nat r0) bf)).
  assert (Hu : length u = Z.to_nat (w0 - r0)) by (subst u; lens; lia).
  unfold fill. cbn [r w buf Conn].
  set (c1 := if bool_decide (r0 > 0) then _ else _).
  assert (∃ bf1, length bf1 = length bf ∧ take (Z.to_nat (w0 - r0)) bf1 = u ∧
    c1 = Ok (mkConnection t0 hs bf1 0 (w0 - r0) ia cm op cw cd tr))
    as (bf1 & Hbf1 & Hu1 & ->).
  { subst c1. case_bool_decide.
    - rewrite slice_in_range by lia. proj. unsetters. proj.
      eexists. split; [apply copy_length|]. split; [|reflexivity].
      unfold copy. cbn [fst].
      rewrite (take_ge (drop (Z.to_nat r0) bf)) by (lens; lia).
      rewrite Nat.min_r by (lens; lia). rewrite firstn_all.
      by rewrite take_app_le by (lens; lia).
    - exists bf. assert (r0 = 0) as -> by lia. rewrite Z.sub_0_r.
      split; [done|]. split; [|done]. subst u.
      rewrite Z.sub_0_r. change (Z.to_nat 0) with 0%nat. by rewrite drop_0. }
  proj.
  set (c2 := if bool_decide (_ < requestedBytes) then _ else _).
  assert (∃ bf2,
    Z.of_nat (length bf2) = Z.max (Z.of_nat (length bf)) requestedBytes ∧
    take (Z.to_nat (w0 - r0)) bf2 = u ∧
    c2 = Ok (mkConnection t0 hs bf2 0 (w0 - r0) ia cm op cw cd tr))
    as (bf2 & Hbf2 & Hu2 & ->).
  { subst c2. case_bool_decide.
    - rewrite slice_in_range by lia. proj. unsetters. proj.
      rewrite !Z.sub_0_r. change (Z.to_nat 0) with 0%nat. rewrite drop_0, Hu1.
      eexists. split; [|split; [|reflexivity]].
      + rewrite copy_length, length_replicate. lia.
      + unfold copy. cbn [fst]. rewrite length_replicate.
        rewrite Nat.min_r by lia. rewrite firstn_all.
        by rewrite take_app_length' by lia.
    - exists bf1. split; [lia|]. by split. }
  proj. rewrite slice_in_range by lia. proj.
  replace (length (take (Z.to_nat (Z.of_nat (length bf2) - (w0 - r0)))
                     (drop (Z.to_nat (w0 - r0)) bf2)))
    with (Z.to_nat (Z.max (Z.of_nat (length bf)) requestedBytes - (w0 - r0)))
    by (lens; lia).
  rewrite Hread. eexists. split; [reflexivity|]. unsetters. proj.
  rewrite Hu2. unfold same_refusals. proj.
  split_and!; try done.
  - rewrite Z.sub_0_r. change (Z.to_nat 0) with 0%nat. rewrite drop_0.
    unfold copy. cbn [fst]. rewrite Nat.min_r by (lens; lia).
    rewrite firstn_all, app_assoc.
    by rewrite take_app_length' by (lens; lia).
  - rewrite length_app, copy_length, Hu. lens. lia.
Qed.

(** X6: under the cursor invariant [fill] does not panic, makes exactly
    one transport read, into the free space left once the unread bytes are
    moved to the front of a buffer of [max(len(buf), requestedBytes)]
    bytes, and leaves as unread bytes the old ones followed by the bytes
    received: nothing is lost or duplicated at a refill, whatever error
    comes with the bytes. The parser state is untouched and the cursor
    invariant holds again. *)
Theorem fill_keeps_unread c requestedBytes t data err :
  buf_inv c →
  conn_Read (Conn c)
    (Z.to_nat (Z.max (Z.of_nat (length (buf c))) requestedBytes
               - (w c - r c))) = (t, data, err) →
  ∃ c', fill c requestedBytes = Ok (c', err) ∧ buf_inv c' ∧
    r c' = 0 ∧ w c' = w c - r c + Z.of_nat (length data) ∧
    unread c' = unread c ++ data ∧
    Z.of_nat (length (buf c')) = Z.max (Z.of_nat (length (buf c))) requestedBytes ∧
    Conn c' = t ∧ iac c' = iac c ∧ cmd c' = cmd c ∧ option_ c' = option_ c ∧
    same_refusals c c' ∧
    trace c' =
      trace c ++
      [ConnRead (Z.to_nat (Z.max (Z.of_nat (length (buf c))) requestedBytes
                           - (w c - r c))) data err].
Proof.
  intros Hinv Hread.
  destruct (fill_unread c requestedBytes t data err Hinv Hread)
    as (c' & Hfill & Hrest).
  exists c'. split; [exact Hfill|]. split; [|exact Hrest].
  exact (fill_buf_inv c requestedBytes c' err Hinv Hfill).
Qed.

(** X7: a transport error ends the pass at once, but nothing received is
    dropped: the pass returns zero bytes and the error, and the bytes that
    came with the error are buffered behind the unread ones. The failed
    transport read is all the pass does: no handler is invoked, nothing is
    written, and the parser state, the handlers and the refusal sets are
    unchanged. *)
Theorem read_error_keeps_buffered_bytes c blen t data e :
  buf_inv c →
  conn_Read (Conn c)
    (Z.to_nat (Z.max (Z.of_nat (length (buf c))) blen - (w c - r c)))
  = (t, data, Some e) →
  ∃ res, read c blen = Ok res ∧ rr_n res = 0 ∧ rr_err res = Some e ∧
    rr_b res = [] ∧ unread (rr_conn res) = unread c ++ data ∧
    iac (rr_conn res) = iac c ∧ cmd (rr_conn res) = cmd c ∧
    option_ (rr_conn res) = option_ c ∧
    Conn (rr_conn res) = t ∧
    OptionHandlers (rr_conn res) = OptionHandlers c ∧
    same_refusals c (rr_conn res) ∧
    trace (rr_conn res) =
      trace c ++
      [ConnRead (Z.to_nat (Z.max (Z.of_nat (length (buf c))) blen
                           - (w c - r c))) data (Some e)].
Proof.
  intros Hinv Hread.
  destruct (fill_unread c blen t data (Some e) Hinv Hread)
    as (c' & Hfill & _ & _ & Hu & _ & Ht & Hi & Hc & Ho & Hsets & Htr).
  pose proof (fill_frame c blen c' (Some e) Hfill) as (_ & _ & Hh & _).
  unfold read. rewrite Hfill. proj. eexists. split; [reflexivity|]. proj.
  by split_and!.
Qed.

(** ** Construction *)



(** Two handlers under one option code: the one given last is kept,
    whichever it is, and the wire holds what the [Offer] callbacks
    wrote. *)
Example NewConnection_keeps_last_handler :
  h24_announcing ≠ h24 ∧
  OptionHandlers (fresh [] [h24; h24_announcing]) !! Byte.x18
  = Some h24_announcing ∧
  OptionHandlers (fresh [] [h24_announcing; h24]) !! Byte.x18 = Some h24 ∧
  tx (Conn (fresh [] [h24; h24_announcing])) = [IAC; WILL; Byte.x18].
Proof.
  split_and!; try reflexivity.
  intros H. apply (f_equal (λ h, tx (offer h (pipe_of [])))) in H.
  discriminate H.
Qed.

(** ** Commands the dispatch does not know *)

(** X9: any command byte other than 0, the marker and [SB] takes the byte
    after it as its option byte. For a command that is none of [WILL],
    [WONT], [DO] and [DONT] the three bytes are consumed and nothing else
    happens: no callback, no reply, no refusal recorded, no application
    byte, so the byte that follows a two-byte command is swallowed. *)
Theorem unknown_command_swallows_next_byte c blen k o t :
  ready c → 0 < blen →
  k ≠ Byte.x00 → k ≠ IAC → k ≠ SB → ¬ negotiation_command k →
  arrives c blen [IAC; k; o] t None →
  ∃ res, read c blen = Ok res ∧
    silent_pass c blen [IAC; k; o] [] res ∧ rr_err res = None ∧
    idle (rr_conn res) ∧ r (rr_conn res) = w (rr_conn res) ∧
    Conn (rr_conn res) = t ∧ same_refusals c (rr_conn res).
Proof.
  intros Hready Hblen Hk0 Hki Hks Hk Harr.
  destruct (read_negotiation c blen k o t) as (junk & ->); try done.
  unfold handleNegotiation. proj. unfold negotiation_command in Hk.
  rewrite !bool_decide_false by (intros ->; apply Hk; auto).
  eexists. split; [reflexivity|].
  unfold silent_pass, idle, same_refusals, endIAC. unsetters. proj. done.
Qed.

(** ** Termination and counts *)

(** X10: the scan loop ends. An iteration either moves to the next byte
    or, once per byte, repeats it with [ignoreIAC] set, so twice the
    number of bytes still to scan, plus one, bounds the iterations: the
    budget [read] gives the loop is never used up, in [read] or in
    [Read]. *)
Theorem scan_loop_terminates :
  (∀ blen i (f : @Frame T), scan (scan_measure i f) blen i f ≠ OutOfFuel) ∧
  (∀ c blen, read c blen ≠ OutOfFuel) ∧
  (∀ c blen, Read c blen ≠ OutOfFuel).
Proof.
  split_and!.
  - intros blen i f. by apply scan_fuel_enough.
  - intros c blen. pose proof (read_frame c blen) as H.
    by destruct (read c blen).
  - intros c blen. pose proof (Read_frame c blen) as H.
    by destruct (Read c blen).
Qed.

(** X11: every decode pass makes exactly one transport read, and a call
    of [Read] makes at most ten; with an empty caller buffer it makes
    none and returns zero bytes and no error. *)
Theorem Read_makes_at_most_ten_transport_reads c :
  (∀ blen,
     after (λ res, passes (trace (rr_conn res)) = S (passes (trace c)))
       (read c blen)) ∧
  (∀ blen,
     after (λ res, (passes (trace (rr_conn res)) ≤ passes (trace c) + 10)%nat)
       (Read c blen)) ∧
  Read c 0 = Ok (mkReadResult c 0 None []).
Proof.
  split_and!.
  - intros blen. pose proof (read_frame c blen) as H.
    destruct (read c blen); cbn [after] in *; [|done|done].
    by destruct H as (_ & _ & _ & ?).
  - intros blen. pose proof (Read_frame c blen) as H.
    destruct (Read c blen); cbn [after] in *; [|done|done].
    by destruct H as (_ & _ & ?).
  - reflexivity.
Qed.

Lemma write_counts blen (f f' : @Frame T) e :
  write blen f e = Ok f' → counts_ok blen f → counts_ok blen f'.
Proof.
  unfold write. case_bool_decide; [by intros [= <-]|].
  case_bool_decide as Hlw; [|done].
  destruct (slice _ _ _) as [src| |]; [|done|done]. proj.
  intros [= <-] (Hl & Hn & Hb). unfold counts_ok. proj.
  rewrite length_app, length_take. lia.
Qed.

Lemma dispatch_counts blen i ch (f : @Frame T) ctl :
  dispatch i ch f = Ok ctl → counts_ok blen f →
  counts_ok blen (ctl_frame ctl).
Proof.
  unfold dispatch. destruct f as [c n lw ig b]. unfold counts_ok. proj.
  unsetters. proj.
  repeat branch; try done; intros [= <-]; by cbn [ctl_frame]; proj.
Qed.

Lemma step_counts blen i (f : @Frame T) ctl :
  step blen i f = Ok ctl → counts_ok blen f →
  counts_ok blen (ctl_frame ctl).
Proof.
  unfold step.
  destruct (index (buf (f_conn f)) i) as [ch| |]; [|done|done]. proj.
  destruct (bool_decide (ch = IAC) && negb (f_ignoreIAC f));
    [|apply dispatch_counts].
  destruct (iac (f_conn f) && bool_decide (cmd (f_conn f) = Byte.x00)).
  { destruct (write blen f i) as [f1| |] eqn:Ew; [|done|done]. proj.
    intros [= <-] Hc. apply (write_counts _ _ _ _ Ew) in Hc. exact Hc. }
  destruct (iac (f_conn f)).
  { destruct (index _ (i - 1)) as [prev| |]; [|done|done]. proj.
    destruct (bool_decide (prev = IAC)); [|apply dispatch_counts].
    destruct (slice _ 0 i) as [dst| |]; [|done|done]. proj.
    destruct (slice _ (i + 1) _) as [src| |]; [|done|done]. proj.
    by intros [= <-] Hc. }
  destruct (write blen f i) as [f1| |] eqn:Ew; [|done|done]. proj.
  intros [= <-] Hc. apply (write_counts _ _ _ _ Ew) in Hc. exact Hc.
Qed.

Lemma scan_counts fuel blen i (f : @Frame T) fin :
  scan fuel blen i f = Ok fin → counts_ok blen f →
  counts_ok blen (end_frame fin).
Proof.
  revert i f. induction fuel as [|fuel IH]; intros i f;
    rewrite ?scan_O, ?scan_S.
  - case_bool_decide; [done|]. by intros [= <-].
  - case_bool_decide; [|by intros [= <-]].
    destruct (step blen i f) as [ctl| |] eqn:Es; [|done|done]. proj.
    intros Hs Hc. pose proof (step_counts _ _ _ _ Es Hc) as Hc'.
    destruct ctl as [i' f'|f'|e f']; cbn [ctl_frame] in Hc'.
    + by eapply IH.
    + by injection Hs as <-.
    + by injection Hs as <-.
Qed.

Lemma read_within_buffer c blen :
  0 ≤ blen → after (within_buffer blen) (read c blen).
Proof.
  intros Hblen. unfold read.
  destruct (fill c blen) as [[c1 err]| |] eqn:Ef; proj;
    [|done|by apply fill_no_OutOfFuel in Ef].
  destruct err as [e|].
  { cbn [after]. unfold within_buffer. proj. cbn [length]. split_and!; (done || lia). }
  destruct (scan _ _ _ _) as [fin| |] eqn:Es; proj; [|done|].
  2:{ apply scan_fuel_enough in Es; [done|].
      unfold scan_measure, scan_fuel. proj. lia. }
  apply scan_counts in Es;
    [|unfold counts_ok; proj; cbn [length]; lia].
  destruct fin as [f|e f]; cbn [end_frame] in Es;
    destruct Es as (Hl & Hn & Hb).
  - rewrite bool_decide_true by lia.
    destruct (slice _ _ _) as [src| |] eqn:Esl; proj;
      [|done|by apply slice_no_OutOfFuel in Esl].
    cbn [after]. unfold within_buffer. proj.
    rewrite length_app, length_take. split_and!; [lia|lia|lia|intros _; lia].
  - cbn [after]. unfold within_buffer. proj. split_and!; (done || lia).
Qed.

(** X12: [Read] never reports more bytes than the caller's buffer holds:
    [0 ≤ n ≤ len(b)], at most [len(b)] bytes are stored, and when no error
    is returned [n] is the number of bytes stored. This holds for every
    transport and every state of the connection, also across retries. *)
Theorem Read_count_within_buffer c blen :
  0 ≤ blen →
  after (within_buffer blen) (read c blen) ∧
  after (within_buffer blen) (Read c blen).
Proof.
  intros Hblen. split; [by apply read_within_buffer|].
  unfold Read. generalize maxReadAttempts. intros k.
  assert (within_buffer blen (mkReadResult c 0 None [])) as H0
    by (unfold within_buffer; proj; cbn [length]; split_and!; (done || lia)).
  revert H0. generalize (mkReadResult c 0 None []).
  induction k as [|k IH]; intros res Hres; cbn [Read_loop]; [done|].
  case_bool_decide; [|done].
  pose proof (read_within_buffer (rr_conn res) blen Hblen) as Hr.
  destruct (read (rr_conn res) blen) as [res'| |]; proj; [|done|done].
  by apply IH.
Qed.

End FillMore.

(** ** Subnegotiation without a handler *)

Section SubnegotiationMore.
Context {T : Type} `{!Transport T}.
Implicit Type c : Connection T.

(** X13: a complete subnegotiation for an option identifier other than 0
    that has no handler is consumed and dropped: no callback, no reply on
    the wire, no application byte; the parser is left outside any sequence
    with every byte consumed. The framing conditions are those of the
    registered case. *)
Theorem subnegotiation_without_handler_is_dropped c blen o P t :
  ready c → 0 < blen → o ≠ Byte.x00 → OptionHandlers c !! o = None →
  sb_safe (o :: P ++ [IAC]) = true →
  arrives c blen ([IAC; SB; o] ++ P ++ [IAC; SE]) t None →
  ∃ res, read c blen = Ok res ∧
    silent_pass c blen ([IAC; SB; o] ++ P ++ [IAC; SE]) [] res ∧
    rr_err res = None ∧ idle (rr_conn res) ∧
    r (rr_conn res) = w (rr_conn res) ∧ Conn (rr_conn res) = t ∧
    same_refusals c (rr_conn res).
Proof.
  intros Hready Hblen Ho Hh Hsafe Harr.
  destruct (fill_ready c blen _ t None Hready Harr) as (junk & Hfill).
  unfold read. rewrite Hfill. proj. unfold scan_fuel. proj.
  set (tr := trace c ++ _). set (hs := OptionHandlers c) in *.
  set (cw := clientWont c). set (cd := clientDont c).
  set (L := o :: P ++ [IAC]) in *. set (p := length P).
  assert (HL : length L = S (S p)) by (subst L p; cbn; lens; cbn; lia).
  assert (Hlen : length ([IAC; SB; o] ++ P ++ [IAC; SE]) = (p + 5)%nat)
    by (cbn; lens; cbn; fold p; lia).
  rewrite Hlen.
  assert (Hbf : ([IAC; SB; o] ++ P ++ [IAC; SE]) ++ junk
                = [IAC; SB] ++ L ++ SE :: junk).
  { subst L. cbn. by rewrite <- !app_assoc. }
  rewrite Hbf. set (bf := [IAC; SB] ++ L ++ SE :: junk).
  assert (Hbflen : Z.of_nat (p + 5) ≤ Z.of_nat (length bf)).
  { subst bf. rewrite !length_app, HL. cbn. lia. }
  assert (HidxL : ∀ j x, 2 ≤ j → L !! Z.to_nat (j - 2) = Some x →
    index bf j = Ok x).
  { intros j x Hj Hx. subst bf. rewrite index_app_r by (cbn; lia).
    apply index_app_l; [cbn; lia|]. exact Hx. }
  assert (HidxSE : index bf (Z.of_nat p + 4) = Ok SE).
  { subst bf. rewrite index_app_r by (cbn; lia).
    rewrite index_app_r by (rewrite HL; cbn; lia).
    apply index_lookup; [rewrite HL; cbn; lia|].
    rewrite HL. cbn [length].
    by replace (Z.to_nat (Z.of_nat p + 4 - Z.of_nat 2 - Z.of_nat (S (S p))))
      with 0%nat by lia. }
  replace (Z.to_nat (2 * (Z.of_nat (p + 5) - 0) + 1))
    with (S (S (S (S p + S (p + 6)))))%nat by lia.
  (* the opening marker *)
  rewrite scan_S. rewrite bool_decide_true by (proj; lia).
  erewrite step_open; [|done|done|by apply index_lookup|apply write_at_cursor].
  proj. unsetters. proj.
  (* the command *)
  rewrite scan_S. rewrite bool_decide_true by (proj; lia).
  rewrite step_SB; [|done|done|done|by apply index_lookup|proj; lia].
  proj. unsetters. proj.
  (* the option byte *)
  rewrite scan_S. rewrite bool_decide_true by (proj; lia).
  erewrite (step_to_dispatch _ _ _ o SB);
    [|done|done|done|by apply HidxL|by apply index_lookup|by intros [_ ?]].
  rewrite dispatch_SB_option by done.
  proj. unsetters. proj.
  (* the body and the marker of the terminator *)
  rewrite scan_skip; proj; [| |lia|lia].
  2:{ intros j Hj.
      destruct (lookup_lt_is_Some_2 L (Z.to_nat (j - 2))) as [ch Hch]; [lia|].
      destruct (lookup_lt_is_Some_2 L (Z.to_nat (j - 3))) as [prev Hprev];
        [lia|].
      apply (step_body _ _ _ ch prev); proj; try done.
      - by apply HidxL; [lia|].
      - apply HidxL; [lia|]. by replace (j - 1 - 2) with (j - 3) by lia.
      - apply (sb_safe_lookup L (Z.to_nat (j - 3))); [done|done|].
        by replace (S (Z.to_nat (j - 3))) with (Z.to_nat (j - 2)) by lia. }
  (* the end of the terminator *)
  replace (0 + 1 + 1 + 1 + Z.of_nat (S p)) with (Z.of_nat p + 4) by lia.
  rewrite scan_S. rewrite bool_decide_true by (proj; lia).
  assert (Hbody : slice bf (0 + 1 + 2) (Z.of_nat p + 4 - 1) = Ok P).
  { rewrite slice_in_range by lia. f_equal.
    replace (Z.to_nat (Z.of_nat p + 4 - 1 - (0 + 1 + 2))) with p by lia.
    change (Z.to_nat (0 + 1 + 2)) with 3%nat. subst bf L p. cbn [app skipn].
    by rewrite drop_0, <- app_assoc, take_app_length. }
  erewrite step_SE; [|done|done|done|done|exact HidxSE| |exact Hbody].
  2:{ proj. apply HidxL; [lia|]. subst L.
      replace (Z.to_nat (Z.of_nat p + 4 - 1 - 2)) with (S p) by lia.
      change (o :: P ++ [IAC]) with ((o :: P) ++ [IAC]).
      rewrite lookup_app_r by (cbn [length]; lia). cbn [length].
      by rewrite Nat.sub_diag. }
  proj. rewrite Hh. unsetters. proj.
  rewrite (scan_to_end 0); proj; [|intros j Hj; lia|lia|lia].
  (* the trailing flush *)
  rewrite bool_decide_true by lia. rewrite slice_in_range by lia. proj.
  replace (Z.to_nat (Z.of_nat (p + 5) - (Z.of_nat p + 4 + 1))) with 0%nat
    by lia.
  rewrite take_0, take_nil. cbn [length]. rewrite Nat.min_0_r.
  eexists. split; [reflexivity|]. unfold silent_pass, idle, same_refusals.
  proj. split_and!; try done. lia.
Qed.
End SubnegotiationMore.

(** ** Data without markers *)

Section PlainData.
Context {T : Type} `{!Transport T}.
Implicit Type c : Connection T.


End PlainData.

(** ** A refusal that cannot be sent *)

Section ReplyFailure.
Context {T : Type} `{!Transport T}.
Implicit Type c : Connection T.

(** X15: when the refusal of an unhandled WILL or DO cannot be written,
    the pass returns at once with a count of zero and the write error,
    although the data bytes [pre] before the sequence have already been
    copied into the caller's buffer and consumed; the sequence itself
    stays unread and the parser stays inside it, with the command and the
    option captured. *)
Theorem failed_refusal_discards_count c blen pre k rk o t t' nn e :
  ready c → IAC ∉ pre → Z.of_nat (length pre) < blen →
  (k = WILL ∧ rk = DONT) ∨ (k = DO ∧ rk = WONT) →
  OptionHandlers c !! o = None →
  arrives c blen (pre ++ [IAC; k; o]) t None →
  conn_Write t [IAC; rk; o] = (t', nn, Some e) →
  ∃ res, read c blen = Ok res ∧
    rr_n res = 0 ∧ rr_err res = Some e ∧ rr_b res = pre ∧
    unread (rr_conn res) = [IAC; k; o] ∧
    r (rr_conn res) = Z.of_nat (length pre) ∧
    iac (rr_conn res) = true ∧ cmd (rr_conn res) = k ∧
    option_ (rr_conn res) = o ∧ Conn (rr_conn res) = t' ∧
    trace (rr_conn res) =
      trace c ++
      [ConnRead (Z.to_nat (Z.max (Z.of_nat (length (buf c))) blen))
         (pre ++ [IAC; k; o]) None;
       ConnWrite [IAC; rk; o] nn (Some e)].
Proof.
  intros Hready Hpre Hroom Hk Hh Harr Hwr.
  assert (Hk0 : k ≠ Byte.x00 ∧ k ≠ IAC ∧ k ≠ SB)
    by (destruct Hk as [[-> _]|[-> _]]; done).
  destruct Hk0 as (Hk0 & Hki & Hks).
  destruct (fill_ready c blen _ t None Hready Harr) as (junk & Hfill).
  unfold read. rewrite Hfill. proj. unfold scan_fuel. proj.
  set (tr := trace c ++ _). set (hs := OptionHandlers c) in *.
  set (cw := clientWont c). set (cd := clientDont c).
  set (p := length pre) in *.
  assert (length (pre ++ [IAC; k; o]) = (p + 3)%nat) as Hlen
    by (rewrite length_app; reflexivity).
  rewrite Hlen.
  set (bf := (pre ++ [IAC; k; o]) ++ junk).
  assert (Hbf : Z.of_nat (p + 3) ≤ Z.of_nat (length bf))
    by (subst bf; rewrite length_app, Hlen; lia).
  assert (Hidx_pre : ∀ j, 0 ≤ j < Z.of_nat p →
    ∃ x, x ≠ IAC ∧ index bf j = Ok x).
  { intros j Hj. destruct (lookup_lt_is_Some_2 pre (Z.to_nat j)) as [x Hx];
      [lia|]. exists x. split.
    - intros ->. apply Hpre. by eapply list_elem_of_lookup_2.
    - subst bf. apply index_app_l; [lia|]. by apply lookup_app_l_Some. }
  assert (Hidx : ∀ d x, [IAC; k; o] !! d = Some x →
    index bf (Z.of_nat p + Z.of_nat d) = Ok x).
  { intros d x Hd. subst bf. apply index_app_l; [lia|].
    replace (Z.to_nat (Z.of_nat p + Z.of_nat d)) with (p + d)%nat by lia.
    rewrite lookup_app_r by (fold p; lia).
    by replace (p + d - length pre)%nat with d by (fold p; lia). }
  pose proof (Hidx 0%nat IAC eq_refl) as Hi0.
  pose proof (Hidx 1%nat k eq_refl) as Hi1.
  pose proof (Hidx 2%nat o eq_refl) as Hi2.
  replace (Z.of_nat p + Z.of_nat 0) with (Z.of_nat p) in Hi0 by lia.
  change (Z.of_nat 1) with 1 in Hi1. change (Z.of_nat 2) with 2 in Hi2.
  (* the data before the sequence *)
  replace (Z.to_nat (2 * (Z.of_nat (p + 3) - 0) + 1))
    with (p + S (S (S (p + 4))))%nat by lia.
  rewrite scan_skip; proj; [|
    intros j Hj; destruct (Hidx_pre j) as (x & Hx & Hix); [lia|];
    by apply (step_plain _ _ _ x) |lia|lia].
  replace (0 + Z.of_nat p) with (Z.of_nat p) by lia.
  (* the opening marker *)
  rewrite scan_S. rewrite bool_decide_true by (proj; lia).
  erewrite step_open; [|done|done|exact Hi0|apply write_flush; lia].
  proj. unsetters. proj.
  assert (Hpending :
    take (Z.to_nat (Z.of_nat p - 0)) (drop (Z.to_nat 0) bf) = pre).
  { replace (Z.to_nat (Z.of_nat p - 0)) with p by lia.
    change (Z.to_nat 0) with 0%nat. rewrite drop_0. subst bf p.
    by rewrite <- app_assoc, take_app_length. }
  rewrite Hpending. fold p.
  rewrite (take_ge pre) by (fold p; lia).
  replace (Z.of_nat (Z.to_nat (blen - 0) `min` p)) with (Z.of_nat p) by lia.
  (* the command *)
  rewrite scan_S. rewrite bool_decide_true by (proj; lia).
  erewrite (step_command _ _ _ k); [|done|done|done|exact Hi1|done|done].
  proj. unsetters. proj.
  (* the option *)
  rewrite scan_S. rewrite bool_decide_true by (proj; lia).
  replace (Z.of_nat p + 1 + 1) with (Z.of_nat p + 2) by lia.
  erewrite (step_to_dispatch _ _ _ o k);
    [|done|done|done|exact Hi2| |by intros [_ ?]].
  2:{ proj. by replace (Z.of_nat p + 2 - 1) with (Z.of_nat p + 1) by lia. }
  rewrite dispatch_option by done.
  unsetters. proj.
  unfold handleNegotiation, writeBytes, Conn_Write. proj.
  assert (Hsrc : take 3 (drop p bf) = [IAC; k; o]).
  { subst bf p. rewrite <- app_assoc, drop_app_length. reflexivity. }
  destruct Hk as [[-> ->]|[-> ->]].
  - rewrite bool_decide_true by done. fold hs. rewrite Hh, Hwr. proj. unsetters. proj.
    eexists. split; [reflexivity|]. unfold unread. proj.
    replace (Z.to_nat (Z.of_nat (p + 3) - (0 + Z.of_nat p))) with 3%nat by lia.
    replace (Z.to_nat (0 + Z.of_nat p)) with p by lia.
    split_and!; try done; try lia. subst tr. by rewrite <- app_assoc.
  - rewrite bool_decide_false by done. rewrite bool_decide_false by done.
    rewrite bool_decide_true by done. fold hs. rewrite Hh, Hwr. proj. unsetters. proj.
    eexists. split; [reflexivity|]. unfold unread. proj.
    replace (Z.to_nat (Z.of_nat (p + 3) - (0 + Z.of_nat p))) with 3%nat by lia.
    replace (Z.to_nat (0 + Z.of_nat p)) with p by lia.
    split_and!; try done; try lia. subst tr. by rewrite <- app_assoc.
Qed.

End ReplyFailure.

(** ** A pass that starts outside any sequence *)

Lemma index_in_range (s : list byte) i :
  0 ≤ i < Z.of_nat (length s) → ∃ x, index s i = Ok x.
Proof.
  intros Hi. destruct (lookup_lt_is_Some_2 s (Z.to_nat i)) as [x Hx]; [lia|].
  exists x. apply index_lookup; [lia|done].
Qed.

Lemma index_behind_front (front s : list byte) i :
  0 ≤ i → length front = Z.to_nat i →
  index (front ++ drop (Z.to_nat i) s) i = index s i.
Proof.
  intros Hi Hf. unfold index. rewrite bool_decide_true by done.
  rewrite lookup_app_r by lia. rewrite lookup_drop.
  by replace (Z.to_nat i + (Z.to_nat i - length front))%nat
    with (Z.to_nat i) by lia.
Qed.

Section SafePass.
Context {T : Type} `{!Transport T}.
Implicit Type c : Connection T.

Lemma scan_safe_end blen i (f : @Frame T) : scan_safe blen i f → end_safe blen f.
Proof. intros (? & ? & _). by split. Qed.

Lemma dispatch_safe blen i ch (f : @Frame T) :
  scan_safe blen i f → i < w (f_conn f) →
  index (buf (f_conn f)) i = Ok ch →
  ∃ ctl, dispatch i ch f = Ok ctl ∧ ctl_safe blen ctl.
Proof.
  intros (Hinv & Hlw & Hi & Hh & Hiac & Hidle & Hopt & Hr & Hsb) Hiw Hch.
  destruct f as [c n lw ig b].
  destruct c as [t hs bf r0 w0 ia cm op cw cd tr].
  unfold buf_inv in Hinv. proj in Hinv. proj in Hlw. proj in Hh.
  proj in Hiac. proj in Hidle. proj in Hopt. proj in Hr. proj in Hsb.
  proj in Hiw. proj in Hch.
  unfold dispatch. unsetters. proj.
  destruct ia; cbn [andb].
  2:{ eexists. split; [reflexivity|].
      specialize (Hidle eq_refl). specialize (Hopt Hidle). subst cm op.
      unfold ctl_safe, scan_safe, buf_inv. proj.
      split_and!; try done; try lia.
      intros _. specialize (Hr ltac:(done)). lia. }
  specialize (Hiac eq_refl). clear Hidle.
  destruct (bool_decide (cm = Byte.x00)) eqn:Ecm.
  { apply bool_decide_eq_true in Ecm. subst cm.
    specialize (Hopt eq_refl). subst op. specialize (Hr ltac:(done)).
    destruct (bool_decide (ch = SB)) eqn:Esb.
    - apply bool_decide_eq_true in Esb. subst ch.
      destruct (bool_decide (i + 2 >= w0)) eqn:Ew.
      + eexists. split; [reflexivity|].
        unfold ctl_safe, end_safe, buf_inv. proj. lia.
      + apply bool_decide_eq_false in Ew.
        eexists. split; [reflexivity|].
        unfold ctl_safe, scan_safe, buf_inv. proj.
        split_and!; try done; try lia.
        intros _. right. left. split; [lia|done].
    - apply bool_decide_eq_false in Esb.
      eexists. split; [reflexivity|].
      unfold ctl_safe, scan_safe, buf_inv. proj.
      split_and!; try done; try lia. }
  apply bool_decide_eq_false in Ecm.
  destruct (bool_decide (op = Byte.x00)) eqn:Eop.
  { apply bool_decide_eq_true in Eop. subst op.
    destruct (bool_decide (cm ≠ SB)) eqn:Esb.
    - apply bool_decide_eq_true in Esb. specialize (Hr Esb).
      destruct (handleNegotiation _) as [[c1 nn] err] eqn:Eh.
      apply handleNegotiation_evolves in Eh
        as ((Hw1 & Hl1 & Hh1 & _) & Hr1 & Hb1 & _).
      proj in Hw1. proj in Hl1. proj in Hh1. proj in Hr1. proj in Hb1.
      destruct err as [e|]; (eexists; split; [reflexivity|]).
      + unfold ctl_safe, end_safe, buf_inv. proj. rewrite Hw1, Hr1, Hb1. lia.
      + unfold ctl_safe, scan_safe, buf_inv. proj. rewrite Hw1, Hb1, Hh1.
        split_and!; try done; try lia.
    - apply bool_decide_eq_false in Esb.
      assert (cm = SB) as -> by (destruct (decide (cm = SB)); done).
      eexists. split; [reflexivity|].
      unfold ctl_safe, scan_safe, buf_inv. proj.
      split_and!; try done; try lia.
      intros _. destruct (Hsb eq_refl) as [H|[[H _]|[H _]]].
      + left. lia.
      + right. right. split; [lia|].
        by replace (i + 1 - 1) with i by lia.
      + left. lia. }
  apply bool_decide_eq_false in Eop.
  assert (Hnext : scan_safe blen (i + 1)
    (mkFrame (mkConnection t hs bf r0 w0 true cm op cw cd tr) n lw false b)).
  { unfold scan_safe, buf_inv. proj. split_and!; try done; try lia.
    - intros Hc. specialize (Hr Hc). lia.
    - intros Hc. destruct (Hsb Hc) as [H|[[_ H]|[H _]]]; [left; lia|done|left; lia]. }
  destruct (bool_decide (cm = SB)) eqn:Esb; cbn [andb];
    [|eexists; split; [reflexivity|exact Hnext]].
  apply bool_decide_eq_true in Esb. subst cm.
  destruct (bool_decide (ch = SE)) eqn:Ese;
    [|eexists; split; [reflexivity|exact Hnext]].
  apply bool_decide_eq_true in Ese. subst ch.
  destruct (index_in_range bf (i - 1)) as [prev Hprev]; [lia|].
  rewrite Hprev. proj.
  destruct (bool_decide (prev = IAC)) eqn:Ep;
    [|eexists; split; [reflexivity|exact Hnext]].
  apply bool_decide_eq_true in Ep. subst prev.
  assert (Hdone : ∀ t' tr', scan_safe blen (i + 1)
    (mkFrame (mkConnection t' hs bf (i + 1) w0 false Byte.x00 Byte.x00 cw cd
                tr') n lw false b)).
  { intros t' tr'. unfold scan_safe, buf_inv. proj.
    split_and!; try done; try lia. }
  destruct (hs !! op) as [h|] eqn:Ehs.
  - destruct (Hsb eq_refl) as [H|[[_ H]|[H Hig]]]; [|done|].
    + rewrite slice_in_range by lia. proj.
      eexists. split; [reflexivity|]. apply Hdone.
    + destruct ig.
      * rewrite Hch in Hig. discriminate Hig.
      * rewrite Hprev in Hig. injection Hig as <-. congruence.
  - proj. eexists. split; [reflexivity|]. apply Hdone.
Qed.

Lemma step_safe blen i (f : @Frame T) :
  scan_safe blen i f → i < w (f_conn f) →
  ∃ ctl, step blen i f = Ok ctl ∧ ctl_safe blen ctl.
Proof.
  intros Hsafe Hiw.
  pose proof Hsafe as (Hinv & Hlw & Hi & Hh & Hiac & Hidle & Hopt & Hr & Hsb).
  unfold buf_inv in Hinv.
  destruct (index_in_range (buf (f_conn f)) i) as [ch Hch]; [lia|].
  unfold step. rewrite Hch. cbn [mbind Exec_bind].
  destruct (bool_decide (ch = IAC) && negb (f_ignoreIAC f)) eqn:E0;
    [|by apply dispatch_safe].
  apply andb_true_iff in E0 as [Ech%bool_decide_eq_true Hig%negb_true_iff].
  subst ch.
  destruct f as [c n lw ig b].
  destruct c as [t hs bf r0 w0 ia cm op cw cd tr].
  proj in Hinv. proj in Hlw. proj in Hh. proj in Hiac. proj in Hidle.
  proj in Hopt. proj in Hr. proj in Hsb. proj in Hiw. proj in Hch.
  proj in Hig. subst ig. proj.
  destruct ia; cbn [andb].
  2:{ (* a sequence opens *)
      specialize (Hidle eq_refl). specialize (Hopt Hidle). subst cm op.
      specialize (Hr ltac:(done)).
      rewrite write_flush by lia. proj. unsetters. proj.
      eexists. split; [reflexivity|].
      unfold ctl_safe, scan_safe, buf_inv. proj. revert Hinv Hlw Hr Hiw Hi.
      lens. intros. split_and!; try done; try lia. }
  specialize (Hiac eq_refl).
  destruct (bool_decide (cm = Byte.x00)) eqn:Ecm.
  { (* the doubled marker *)
    apply bool_decide_eq_true in Ecm. subst cm.
    specialize (Hopt eq_refl). subst op. specialize (Hr ltac:(done)).
    rewrite write_flush by lia. proj. unsetters. proj.
    eexists. split; [reflexivity|].
    unfold ctl_safe, scan_safe, buf_inv. proj. revert Hinv Hlw Hr Hiw Hi.
    lens. intros. split_and!; try done; try lia. }
  apply bool_decide_eq_false in Ecm.
  destruct (index_in_range bf (i - 1)) as [prev Hprev]; [lia|].
  rewrite Hprev. proj.
  destruct (bool_decide (prev = IAC)) eqn:Ep; [|by apply dispatch_safe].
  (* the marker pair inside a sequence *)
  rewrite !slice_in_range by lia. proj. unsetters. proj.
  eexists. split; [reflexivity|].
  assert (Hfront : length (copy (take (Z.to_nat (i - 0)) (drop (Z.to_nat 0) bf))
                     (take (Z.to_nat (Z.of_nat (length bf) - (i + 1)))
                        (drop (Z.to_nat (i + 1)) bf))).1 = Z.to_nat i).
  { rewrite copy_length, length_take, length_drop. lia. }
  unfold ctl_safe, scan_safe, buf_inv. proj.
  replace (i - 1 + 1) with i by lia.
  rewrite length_app, Hfront, length_drop.
  split_and!; try done; try lia.
  intros Hc. destruct (Hsb Hc) as [H|[H|[H _]]]; [by left|by right; left|].
  right. right. split; [done|].
  by rewrite index_behind_front.
Qed.

Lemma scan_safe_run fuel blen i (f : @Frame T) :
  scan_safe blen i f →
  match scan fuel blen i f with
  | Ok fin => end_safe blen (end_frame fin)
  | Panic => False
  | OutOfFuel => True
  end.
Proof.
  revert i f. induction fuel as [|fuel IH]; intros i f Hsafe;
    rewrite ?scan_O, ?scan_S.
  - case_bool_decide; [done|]. cbn [end_frame]. by eapply scan_safe_end.
  - case_bool_decide as Hc; [|cbn [end_frame]; by eapply scan_safe_end].
    destruct (step_safe blen i f Hsafe) as (ctl & -> & Hctl); [lia|].
    cbn [mbind Exec_bind]. destruct ctl as [i' f'|f'|e f'].
    + by apply IH.
    + exact Hctl.
    + exact Hctl.
Qed.

(** X16: a pass that starts outside any sequence completes without a
    panic, whatever the transport delivers and whatever the size of the
    caller's buffer, provided no handler is registered under the marker
    byte 255 as option identifier: inside the pass every look-behind
    [c.buf[i-1]] has [i > 0] and every slice has ordered bounds. *)
Theorem read_outside_sequence_completes c blen :
  buf_inv c → idle c → 0 ≤ blen → OptionHandlers c !! IAC = None →
  ∃ res, read c blen = Ok res.
Proof.
  intros Hinv (Hiac & Hcmd & Hopt) Hblen Hh.
  destruct (conn_Read (Conn c)
    (Z.to_nat (Z.max (Z.of_nat (length (buf c))) blen - (w c - r c))))
    as [[t data] err] eqn:Hread.
  destruct (fill_unread c blen t data err Hinv Hread)
    as (c' & Hfill & Hr' & _ & _ & _ & _ & Hi' & Hc' & Ho' & _ & _).
  pose proof (fill_buf_inv c blen c' err Hinv Hfill) as Hinv'.
  pose proof (fill_frame c blen c' err Hfill) as (_ & _ & Hh' & _).
  unfold read. rewrite Hfill. proj.
  destruct err as [e|]; [by eexists|].
  assert (Hsafe : scan_safe blen (r c') (mkFrame c' 0 0 false [])).
  { unfold scan_safe. proj. rewrite Hh', Hi', Hc', Ho', Hiac, Hcmd, Hopt, Hr'.
    split_and!; try done; try lia. }
  pose proof (scan_safe_run (scan_fuel c') blen (r c') _ Hsafe) as Hrun.
  destruct (scan _ _ _ _) as [fin| |] eqn:Es; [|done|].
  - proj. destruct Hrun as [(? & ? & ?) Hlw].
    destruct fin as [f|e f]; cbn [end_frame] in *; [|by eexists].
    rewrite bool_decide_true by done. rewrite slice_in_range by lia. proj.
    by eexists.
  - apply scan_fuel_enough in Es; [done|].
    unfold scan_measure, scan_fuel. proj. lia.
Qed.

End SafePass.

(** ** The further properties at concrete inputs *)

Lemma Write_plain_is_one_transport_write_witness :
  (IAC ∉ [Byte.x41; Byte.x42]) ∧
  Write (fresh [] []) [Byte.x41; Byte.x42]
  = Ok (Conn_Write (fresh [] []) [Byte.x41; Byte.x42]).
Proof.
  assert (IAC ∉ [Byte.x41; Byte.x42]) as Hplain.
  { intros Hin. apply elem_of_cons in Hin as [Hin|Hin]; [discriminate Hin|].
    apply list_elem_of_singleton in Hin. discriminate Hin. }
  split; [exact Hplain|].
  exact (Write_plain_is_one_transport_write (fresh [] [])
           [Byte.x41; Byte.x42] Hplain).
Defined.

Lemma Write_escapes_well_spaced_witness :
  tx_room (Conn (fresh [] [])) = None ∧
  well_spaced [Byte.x41; Byte.x42; IAC; Byte.x43] = true ∧
  ∃ c', Write (fresh [] []) [Byte.x41; Byte.x42; IAC; Byte.x43]
        = Ok (c', 5, None) ∧
    tx (Conn c') = [Byte.x41; Byte.x42; IAC; IAC; Byte.x43].
Proof.
  split; [reflexivity|]. split; [reflexivity|].
  exact (Write_escapes_well_spaced (fresh [] [])
           [Byte.x41; Byte.x42; IAC; Byte.x43] eq_refl eq_refl).
Defined.

Lemma read_decodes_escaped_witness :
  ready (fresh [[Byte.x41; IAC; IAC]] []) ∧
  ∃ res, read (fresh [[Byte.x41; IAC; IAC]] []) 16 = Ok res ∧
    Read (fresh [[Byte.x41; IAC; IAC]] []) 16 = Ok res ∧
    rr_err res = None ∧ rr_b res = [Byte.x41; IAC].
Proof.
  assert (ready (fresh [[Byte.x41; IAC; IAC]] [])) as Hready
    by (unfold ready, buf_inv, idle; cbn; split_and!; try done; lia).
  split; [exact Hready|].
  assert (arrives (fresh [[Byte.x41; IAC; IAC]] []) 16
            (escape [Byte.x41; IAC]) (pipe_of []) None) as Harr
    by reflexivity.
  destruct (read_decodes_escaped (fresh [[Byte.x41; IAC; IAC]] []) 16
              [Byte.x41; IAC] (pipe_of []) Hready)
    as (res & Hres & HRead & Herr & Hb & _).
  - cbn. lia.
  - exact Harr.
  - exists res. split; [exact Hres|]. split; [by apply HRead|].
    split; [exact Herr|exact Hb].
Defined.

Lemma round_trip_well_spaced_witness :
  well_spaced [Byte.x41; Byte.x42; IAC] = true ∧
  round_trip [Byte.x41; Byte.x42; IAC] 16 = Ok [Byte.x41; Byte.x42; IAC].
Proof.
  split; [reflexivity|].
  apply (round_trip_well_spaced [Byte.x41; Byte.x42; IAC] 16).
  - discriminate.
  - reflexivity.
  - vm_compute. discriminate.
  - vm_compute. discriminate.
Defined.

Lemma fill_keeps_unread_witness :
  buf_inv (fresh [[Byte.x41]] []) ∧
  ∃ c', fill (fresh [[Byte.x41]] []) 16 = Ok (c', None) ∧
    unread c' = [Byte.x41] ∧ r c' = 0 ∧ w c' = 1.
Proof.
  assert (buf_inv (fresh [[Byte.x41]] [])) as Hinv
    by (unfold buf_inv; cbn; lia).
  split; [exact Hinv|].
  destruct (fill_keeps_unread (fresh [[Byte.x41]] []) 16 (pipe_of [])
              [Byte.x41] None Hinv)
    as (c' & Hfill & _ & Hr & Hw & Hu & _).
  - reflexivity.
  - exists c'. split; [exact Hfill|]. split; [exact Hu|].
    split; [exact Hr|exact Hw].
Defined.

Lemma read_error_keeps_buffered_bytes_witness :
  buf_inv (NewConnection (mkPipe [([Byte.x41], Some (net_error 110))] [] None)
             []) ∧
  ∃ res,
    read (NewConnection (mkPipe [([Byte.x41], Some (net_error 110))] [] None)
            []) 16 = Ok res ∧
    rr_n res = 0 ∧ rr_err res = Some (net_error 110) ∧
    unread (rr_conn res) = [Byte.x41].
Proof.
  assert (buf_inv (NewConnection
                     (mkPipe [([Byte.x41], Some (net_error 110))] [] None) []))
    as Hinv by (unfold buf_inv; cbn; lia).
  split; [exact Hinv|].
  destruct (read_error_keeps_buffered_bytes
              (NewConnection
                 (mkPipe [([Byte.x41], Some (net_error 110))] [] None) [])
              16 (mkPipe [] [] None) [Byte.x41] (net_error 110) Hinv)
    as (res & Hres & Hn & Herr & _ & Hu & _).
  - reflexivity.
  - exists res. split; [exact Hres|]. split; [exact Hn|].
    split; [exact Herr|exact Hu].
Defined.

Lemma unknown_command_swallows_next_byte_witness :
  ready (fresh [[IAC; Byte.xf1; Byte.x41]] []) ∧
  ∃ res, read (fresh [[IAC; Byte.xf1; Byte.x41]] []) 16 = Ok res ∧
    silent_pass (fresh [[IAC; Byte.xf1; Byte.x41]] []) 16
      [IAC; Byte.xf1; Byte.x41] [] res.
Proof.
  assert (ready (fresh [[IAC; Byte.xf1; Byte.x41]] [])) as Hready
    by (unfold ready, buf_inv, idle; cbn; split_and!; try done; lia).
  split; [exact Hready|].
  assert (arrives (fresh [[IAC; Byte.xf1; Byte.x41]] []) 16
            [IAC; Byte.xf1; Byte.x41] (pipe_of []) None) as Harr
    by reflexivity.
  destruct (unknown_command_swallows_next_byte
              (fresh [[IAC; Byte.xf1; Byte.x41]] []) 16 Byte.xf1 Byte.x41
              (pipe_of []) Hready)
    as (res & Hres & Hsilent & _).
  - lia.
  - discriminate.
  - discriminate.
  - discriminate.
  - intros [H|[H|[H|H]]]; discriminate H.
  - exact Harr.
  - exists res. split; [exact Hres|exact Hsilent].
Defined.

Lemma Read_count_within_buffer_witness :
  after (within_buffer 16) (read (fresh [[Byte.x41]] []) 16) ∧
  after (within_buffer 16) (Read (fresh [[Byte.x41]] []) 16).
Proof.
  apply (Read_count_within_buffer (fresh [[Byte.x41]] []) 16). lia.
Defined.

Lemma subnegotiation_without_handler_is_dropped_witness :
  ready (fresh [[IAC; SB; Byte.x18; Byte.x61; IAC; SE]] []) ∧
  ∃ res,
    read (fresh [[IAC; SB; Byte.x18; Byte.x61; IAC; SE]] []) 16 = Ok res ∧
    silent_pass (fresh [[IAC; SB; Byte.x18; Byte.x61; IAC; SE]] []) 16
      [IAC; SB; Byte.x18; Byte.x61; IAC; SE] [] res.
Proof.
  assert (ready (fresh [[IAC; SB; Byte.x18; Byte.x61; IAC; SE]] []))
    as Hready
    by (unfold ready, buf_inv, idle; cbn; split_and!; try done; lia).
  split; [exact Hready|].
  destruct (subnegotiation_without_handler_is_dropped
              (fresh [[IAC; SB; Byte.x18; Byte.x61; IAC; SE]] [])
              16 Byte.x18 [Byte.x61] (pipe_of []) Hready)
    as (res & Hres & Hsilent & _).
  - lia.
  - discriminate.
  - reflexivity.
  - reflexivity.
  - reflexivity.
  - exists res. split; [exact Hres|exact Hsilent].
Defined.


Lemma failed_refusal_discards_count_witness :
  ready (NewConnection
           (mkPipe [([Byte.x41; IAC; WILL; Byte.x01], None)] [] (Some 0%nat))
           []) ∧
  ∃ res,
    read (NewConnection
            (mkPipe [([Byte.x41; IAC; WILL; Byte.x01], None)] [] (Some 0%nat))
            []) 16 = Ok res ∧
    rr_n res = 0 ∧ rr_err res = Some (net_error 32) ∧
    rr_b res = [Byte.x41] ∧ unread (rr_conn res) = [IAC; WILL; Byte.x01].
Proof.
  assert (ready (NewConnection
                   (mkPipe [([Byte.x41; IAC; WILL; Byte.x01], None)] []
                      (Some 0%nat)) [])) as Hready
    by (unfold ready, buf_inv, idle; cbn; split_and!; try done; lia).
  split; [exact Hready|].
  assert (arrives
            (NewConnection
               (mkPipe [([Byte.x41; IAC; WILL; Byte.x01], None)] []
                  (Some 0%nat)) [])
            16 ([Byte.x41] ++ [IAC; WILL; Byte.x01])
            (mkPipe [] [] (Some 0%nat)) None) as Harr
    by reflexivity.
  assert (conn_Write (mkPipe [] [] (Some 0%nat)) [IAC; DONT; Byte.x01]
          = (mkPipe [] [] (Some 0%nat), 0%nat, Some (net_error 32))) as Hwr
    by reflexivity.
  destruct (failed_refusal_discards_count
              (NewConnection
                 (mkPipe [([Byte.x41; IAC; WILL; Byte.x01], None)] []
                    (Some 0%nat)) [])
              16 [Byte.x41] WILL DONT Byte.x01
              (mkPipe [] [] (Some 0%nat)) (mkPipe [] [] (Some 0%nat)) 0%nat
              (net_error 32) Hready)
    as (res & Hres & Hn & Herr & Hb & Hu & _).
  - intros Hin. apply list_elem_of_singleton in Hin. discriminate Hin.
  - cbn. lia.
  - by left.
  - reflexivity.
  - exact Harr.
  - exact Hwr.
  - exists res. split; [exact Hres|]. split; [exact Hn|].
    split; [exact Herr|]. split; [exact Hb|exact Hu].
Defined.

Lemma read_outside_sequence_completes_witness :
  buf_inv (fresh [[IAC; SB; IAC; SE; Byte.x41]] [h24]) ∧
  idle (fresh [[IAC; SB; IAC; SE; Byte.x41]] [h24]) ∧
  ∃ res, read (fresh [[IAC; SB; IAC; SE; Byte.x41]] [h24]) 16 = Ok res.
Proof.
  assert (buf_inv (fresh [[IAC; SB; IAC; SE; Byte.x41]] [h24])) as Hinv
    by (unfold buf_inv; cbn; lia).
  assert (idle (fresh [[IAC; SB; IAC; SE; Byte.x41]] [h24])) as Hidle
    by (unfold idle; cbn; done).
  split; [exact Hinv|]. split; [exact Hidle|].
  apply (read_outside_sequence_completes
           (fresh [[IAC; SB; IAC; SE; Byte.x41]] [h24]) 16 Hinv Hidle).
  - lia.
  - reflexivity.
Defined.

(** The condition on the handlers is needed: with a handler registered
    under 255, the subnegotiation [IAC SB IAC SE] makes the pass slice the
    buffer with its bounds out of order. *)
Example handler_under_marker_byte_panics :
  decode 1 (fresh [[IAC; SB; IAC; SE]] [mkNegotiator IAC id id id (λ _, id)])
    16 = Panic.
Proof. vm_compute. reflexivity. Qed.
